(** * Vector FX landing page script: a verified model of [script.js]

    The script is a set of independent browser-event handlers.  The
    first half of this file embeds them, module by module:

    - [JsString]: JavaScript strings as sequences of UTF-16 code units,
      with [trim], [split] and [join];
    - [Regex]: the fragment of regular expressions that [emailRegex]
      uses, its language and an executable matcher;
    - [Email]: [isValidEmail], and the address shape it is meant to
      accept;
    - [Effects]: function bodies that write to the page and may throw;
    - [Bootstrap]: the guarded [init] sequence;
    - [ScrollReveal]: [initScrollAnimations] and its observer callback;
    - [Waitlist]: [initWaitlistForm], [handleFormSubmit] and the helpers
      it calls ([shakeElement], [announceToScreenReader],
      [createConfetti], [prefersReducedMotion], [trackEvent]).

    - [Navbar], [Parallax]: the two throttled listeners;
    - [Animations], [Startup]: the keyframes injection and the
      readiness check around [init];
    - [PageInvariants]: properties of the waitlist page used below.

    The second half proves what the handlers do: [RegexFacts],
    [JsStringFacts], [EmailFacts], [BootstrapFacts],
    [ScrollRevealFacts], [ConfettiFacts] and [WaitlistFacts], then
    [EmailExtras], [HandlerExtras], [NodeExtras], [ScrollExtras],
    [StartupExtras], [NavbarExtras], [ParallaxExtras] and
    [AnimationsExtras]. *)

From Stdlib Require Import List Bool Arith NArith ZArith QArith Qround Lia Lqa String Ascii.
From Stdlib Require Import Sorted.
Import ListNotations.
Close Scope Q_scope.

Set Implicit Arguments.

(* ===================================================================== *)
(** * JavaScript strings *)
(* ===================================================================== *)

Module JsString.

(** A JavaScript string is a sequence of UTF-16 code units; [length],
    [trim], [split] and a regular expression without the [u] flag all
    work on code units. *)
Definition char16 := N.
Definition jsstring := list char16.

Definition code (c : ascii) : char16 := N_of_ascii c.

(** The code units of an ASCII literal. *)
Definition lit (s : string) : jsstring := map code (list_ascii_of_string s).

Definition in_range (lo hi c : char16) : bool := ((lo <=? c) && (c <=? hi))%N.

(** ECMAScript WhiteSpace and LineTerminator code points, the ones
    [String.prototype.trim] strips. *)
Definition is_js_space (c : char16) : bool :=
  (in_range 9 13 c || (c =? 32) || (c =? 160) || (c =? 5760)
   || in_range 8192 8202 c || (c =? 8232) || (c =? 8233) || (c =? 8239)
   || (c =? 8287) || (c =? 12288) || (c =? 65279))%N.

Fixpoint trim_start (s : jsstring) : jsstring :=
  match s with
  | c :: t => if is_js_space c then trim_start t else s
  | [] => []
  end.

Definition trim_end (s : jsstring) : jsstring := rev (trim_start (rev s)).

(** [s.trim()] *)
Definition trim (s : jsstring) : jsstring := trim_end (trim_start s).

(** [s.split(sep)] for a one-unit separator: the pieces between the
    occurrences of [sep], never an empty array. *)
Fixpoint split (sep : char16) (s : jsstring) : list jsstring :=
  match s with
  | [] => [[]]
  | c :: t =>
      if (c =? sep)%N then [] :: split sep t
      else match split sep t with
           | p :: ps => (c :: p) :: ps
           | [] => [[c]]
           end
  end.

(** [a[i]]: [undefined] out of range. *)
Definition index {A} (a : list A) (i : nat) : option A := nth_error a i.

(** [pieces.join(sep)] *)
Fixpoint join (sep : char16) (pieces : list jsstring) : jsstring :=
  match pieces with
  | [] => []
  | [p] => p
  | p :: ps => p ++ sep :: join sep ps
  end.

End JsString.

(* ===================================================================== *)
(** * Regular expressions *)
(* ===================================================================== *)

Module Regex.
Import JsString.

(** A character class [[...]]: single units and inclusive ranges. *)
Inductive class_item :=
| One (c : char16)
| Range (lo hi : char16).

Definition charclass := list class_item.

Definition item_has (c : char16) (i : class_item) : bool :=
  match i with
  | One d => (c =? d)%N
  | Range lo hi => in_range lo hi c
  end.

Definition class_has (cs : charclass) (c : char16) : bool :=
  existsb (item_has c) cs.

(** The operators of the pattern: sequence, alternation and [*]; the
    other quantifiers are derived below. *)
Inductive regex :=
| Void
| Eps
| Class (cs : charclass)
| Cat (r s : regex)
| Alt (r s : regex)
| Star (r : regex).

(** [r+] *)
Definition Plus (r : regex) : regex := Cat r (Star r).

(** [(?:r)?] *)
Definition Opt (r : regex) : regex := Alt r Eps.

(** [r{0,n}] *)
Fixpoint UpTo (n : nat) (r : regex) : regex :=
  match n with
  | O => Eps
  | S m => Opt (Cat r (UpTo m r))
  end.

(** The strings a pattern matches as a whole. *)
Inductive Matches : regex -> jsstring -> Prop :=
| MEps : Matches Eps []
| MClass cs c : class_has cs c = true -> Matches (Class cs) [c]
| MCat r s u v : Matches r u -> Matches s v -> Matches (Cat r s) (u ++ v)
| MAltL r s u : Matches r u -> Matches (Alt r s) u
| MAltR r s u : Matches s u -> Matches (Alt r s) u
| MStarNil r : Matches (Star r) []
| MStarApp r u v : Matches r u -> Matches (Star r) v -> Matches (Star r) (u ++ v).

(** ** The matcher: Brzozowski derivatives *)

Fixpoint nullable (r : regex) : bool :=
  match r with
  | Void => false
  | Eps => true
  | Class _ => false
  | Cat r s => nullable r && nullable s
  | Alt r s => nullable r || nullable s
  | Star _ => true
  end.

(** Constructors that drop [Void] and [Eps] units, so that derivatives
    stay small. *)
Definition cat (r s : regex) : regex :=
  match r, s with
  | Void, _ => Void
  | _, Void => Void
  | Eps, _ => s
  | _, _ => Cat r s
  end.

Definition alt (r s : regex) : regex :=
  match r, s with
  | Void, _ => s
  | _, Void => r
  | _, _ => Alt r s
  end.

Fixpoint deriv (c : char16) (r : regex) : regex :=
  match r with
  | Void => Void
  | Eps => Void
  | Class cs => if class_has cs c then Eps else Void
  | Cat r s =>
      if nullable r then alt (cat (deriv c r) s) (deriv c s)
      else cat (deriv c r) s
  | Alt r s => alt (deriv c r) (deriv c s)
  | Star r => cat (deriv c r) (Star r)
  end.

(** [/^r$/.test(s)]: without the [m] flag the anchors are the two ends
    of the input, so the test is whole-string matching. *)
Fixpoint test (r : regex) (s : jsstring) : bool :=
  match s with
  | [] => nullable r
  | c :: t => test (deriv c r) t
  end.

End Regex.

(* ===================================================================== *)
(** * Email validation *)
(* ===================================================================== *)

Module Email.
Import JsString Regex.

(** [[a-zA-Z0-9]] *)
Definition alnum : charclass :=
  [Range (code "a") (code "z"); Range (code "A") (code "Z");
   Range (code "0") (code "9")].

(** [[a-zA-Z0-9-]] *)
Definition alnum_hyphen : charclass := alnum ++ [One (code "-")].

(** [[a-zA-Z0-9.!#$%&'*+/=?^_`{|}~-]] *)
Definition local_class : charclass :=
  alnum ++ map One (lit ".!#$%&'*+/=?^_`{|}~-").

(** [[a-zA-Z0-9](?:[a-zA-Z0-9-]{0,61}[a-zA-Z0-9])?] *)
Definition label_re : regex :=
  Cat (Class alnum) (Opt (Cat (UpTo 61 (Class alnum_hyphen)) (Class alnum))).

Definition emailRegex : regex :=
  Cat (Plus (Class local_class))
      (Cat (Class [One (code "@")])
           (Cat label_re
                (Star (Cat (Class [One (code ".")]) label_re)))).

Definition isValidEmail (email : jsstring) : bool :=
  test emailRegex email && (List.length email <=? 254).

(** ** The address shape, in the words of the specification *)

Definition at_sign : char16 := code "@".
Definition dot : char16 := code ".".
Definition hyphen : char16 := code "-".

Definition is_alnum (c : char16) : bool :=
  in_range (code "a") (code "z") c || in_range (code "A") (code "Z") c
  || in_range (code "0") (code "9") c.

Definition label_char (c : char16) : bool := is_alnum c || (c =? hyphen)%N.

(** A label: 1 to 63 units, alphanumeric or hyphen, hyphens only
    inside. *)
Definition is_label (l : jsstring) : bool :=
  (1 <=? List.length l) && (List.length l <=? 63)
  && forallb label_char l
  && negb (hd 0%N l =? hyphen)%N && negb (last l 0%N =? hyphen)%N.

(** A domain: one or more labels separated by dots. *)
Definition is_domain (d : jsstring) : bool :=
  forallb is_label (split dot d).

Definition is_local_part (l : jsstring) : bool :=
  negb (Nat.eqb (List.length l) 0) && forallb (class_has local_class) l.

(** [local-part@domain] *)
Definition address_shape (s : jsstring) : Prop :=
  exists l d, s = l ++ at_sign :: d
              /\ is_local_part l = true /\ is_domain d = true.

(** A 255-unit address of the right shape: four labels of 63, 63, 63
    and 61 units. *)
Definition long_address : jsstring :=
  lit "a@" ++ repeat (code "b") 63 ++ dot :: repeat (code "b") 63
          ++ dot :: repeat (code "b") 63 ++ dot :: repeat (code "b") 61.

End Email.


(* ===================================================================== *)
(** * Effects: state that survives a [throw] *)
(* ===================================================================== *)

Module Effects.

(** A thrown JavaScript value: [new Error(message)], or a [TypeError]
    raised by reading a property of [null]. *)
Inductive js_error :=
| Error (message : string)
| TypeError (message : string).

Section Monad.
Variable W : Type.

(** A function body either completes or throws; in both cases the
    writes it made before are kept. *)
Inductive outcome (A : Type) :=
| Normal (a : A) (w : W)
| Thrown (e : js_error) (w : W).

Arguments Normal {A} a w.
Arguments Thrown {A} e w.

Definition M (A : Type) := W -> outcome A.

Definition ret {A} (a : A) : M A := fun w => Normal a w.

Definition bind {A B} (c : M A) (k : A -> M B) : M B :=
  fun w => match c w with
           | Normal a w' => k a w'
           | Thrown e w' => Thrown e w'
           end.

Definition throw {A} (e : js_error) : M A := fun w => Thrown e w.

(** [try { body } catch (error) { handler }] *)
Definition try_catch {A} (body : M A) (handler : js_error -> M A) : M A :=
  fun w => match body w with
           | Normal a w' => Normal a w'
           | Thrown e w' => handler e w'
           end.

Definition gets {A} (f : W -> A) : M A := fun w => Normal (f w) w.

Definition modify (f : W -> W) : M unit := fun w => Normal tt (f w).

(** [if (c) { body }] *)
Definition when (c : bool) (body : M unit) : M unit :=
  if c then body else ret tt.

(** A statement sequence. *)
Fixpoint sequence (cs : list (M unit)) : M unit :=
  match cs with
  | [] => ret tt
  | c :: cs' => bind c (fun _ => sequence cs')
  end.

(** The state an outcome leaves behind. *)
Definition final {A} (o : outcome A) : W :=
  match o with
  | Normal _ w => w
  | Thrown _ w => w
  end.

Definition completes {A} (o : outcome A) : bool :=
  match o with
  | Normal _ _ => true
  | Thrown _ _ => false
  end.
End Monad.

Arguments Normal {W A} a w.
Arguments Thrown {W A} e w.
Arguments ret {W A} a _.
Arguments throw {W A} e _.
Arguments gets {W A} f _.
Arguments modify {W} f _.

Declare Scope js_scope.
Delimit Scope js_scope with js.
Notation "x <- c ;; k" := (bind c (fun x => k))
  (at level 61, c at next level, right associativity) : js_scope.
Notation "c ;; k" := (bind c (fun _ => k))
  (at level 61, right associativity) : js_scope.

End Effects.

(* ===================================================================== *)
(** * Bootstrap *)
(* ===================================================================== *)

Module Bootstrap.
Import Effects.
Local Open Scope js_scope.

Section Init.
Variable W : Type.

(** [console.error(message, error)] *)
Variable console_error : string -> js_error -> W -> W.

Variables initScrollAnimations initWaitlistForm initSmoothScroll
          initNavbarScroll initCurrentYear initKeyboardNavigation : M W unit.

(** The calls of the [try] block, in source order. *)
Definition initializers : list (M W unit) :=
  [initScrollAnimations; initWaitlistForm; initSmoothScroll;
   initNavbarScroll; initCurrentYear; initKeyboardNavigation].

Definition init : M W unit :=
  try_catch
    (sequence initializers)
    (fun error =>
       modify (console_error "Vector FX: Initialization error" error)).
End Init.

(** An instrumented page for running [init]: each initializer records
    its name when it is entered, and throws if the page says so. *)
Inductive initializer :=
| ScrollAnimations | WaitlistForm | SmoothScroll
| NavbarScroll | CurrentYear | KeyboardNavigation.

Record probe := {
  entered : list initializer;
  logged : list (string * js_error)
}.

Definition probe_error (message : string) (e : js_error) (p : probe) : probe :=
  {| entered := entered p; logged := logged p ++ [(message, e)] |}.

Definition initializer_eqb (a b : initializer) : bool :=
  match a, b with
  | ScrollAnimations, ScrollAnimations | WaitlistForm, WaitlistForm
  | SmoothScroll, SmoothScroll | NavbarScroll, NavbarScroll
  | CurrentYear, CurrentYear | KeyboardNavigation, KeyboardNavigation => true
  | _, _ => false
  end.

Definition probe_initializer (failing : initializer -> bool) (i : initializer)
  : M probe unit :=
  modify (fun p => {| entered := entered p ++ [i]; logged := logged p |}) ;;
  if failing i then throw (Error "initializer failed") else ret tt.

Definition probe0 : probe := {| entered := []; logged := [] |}.

Definition probe_init (failing : initializer -> bool) : M probe unit :=
  init probe_error
       (probe_initializer failing ScrollAnimations)
       (probe_initializer failing WaitlistForm)
       (probe_initializer failing SmoothScroll)
       (probe_initializer failing NavbarScroll)
       (probe_initializer failing CurrentYear)
       (probe_initializer failing KeyboardNavigation).

End Bootstrap.

(* ===================================================================== *)
(** * Scroll reveal *)
(* ===================================================================== *)

Module ScrollReveal.

(** An element of the page, as far as the script reads and writes it.
    Elements are named by their position in document order. *)
Record element := {
  classList : list string;
  style_opacity : option string;
  style_transform : option string
}.

Record entry := {
  target : nat;
  isIntersecting : bool
}.

(** A pending [setTimeout] callback: [entry.target.classList.add('visible')]. *)
Inductive callback :=
| AddVisible (target : nat).

Record page := {
  hasIntersectionObserver : bool;     (* 'IntersectionObserver' in window *)
  elements : list element;
  observed : list nat;               (* targets of the observer *)
  timers : list (Z * callback)         (* delay in ms, callback *)
}.

Definition has_class (c : string) (el : element) : bool :=
  existsb (String.eqb c) (classList el).

(** [el.classList.add(c)]: a token list holds no duplicates. *)
Definition classList_add (c : string) (el : element) : element :=
  {| classList := if has_class c el then classList el else classList el ++ [c];
     style_opacity := style_opacity el;
     style_transform := style_transform el |}.

Definition show_now (el : element) : element :=
  {| classList := classList el;
     style_opacity := Some "1"%string;
     style_transform := Some "none"%string |}.

Definition section_classes : list string :=
  ["problem-item"; "feature-card"; "method-item"; "audience-card";
   "comparison-col"]%string.

(** Matches the selector list
    ['.problem-item, .feature-card, .method-item, .audience-card, .comparison-col']. *)
Definition is_section_item (el : element) : bool :=
  existsb (fun c => has_class c el) section_classes.

(** Positions of the elements a selector matches, in document order. *)
Fixpoint select_from (i : nat) (sel : element -> bool) (els : list element)
  : list nat :=
  match els with
  | [] => []
  | el :: rest =>
      if sel el then i :: select_from (S i) sel rest
      else select_from (S i) sel rest
  end.

Definition querySelectorAll (sel : element -> bool) (p : page) : list nat :=
  select_from 0 sel (elements p).

(** Apply [f] to the element at position [i]. *)
Fixpoint update_at (i : nat) (f : element -> element) (els : list element)
  : list element :=
  match els, i with
  | [], _ => []
  | el :: rest, O => f el :: rest
  | el :: rest, S j => el :: update_at j f rest
  end.

Definition update_element (f : element -> element) (p : page) (i : nat) : page :=
  {| hasIntersectionObserver := hasIntersectionObserver p;
     elements := update_at i f (elements p);
     observed := observed p;
     timers := timers p |}.

Definition observe (p : page) (i : nat) : page :=
  {| hasIntersectionObserver := hasIntersectionObserver p;
     elements := elements p;
     observed := if existsb (Nat.eqb i) (observed p) then observed p
                 else observed p ++ [i];
     timers := timers p |}.

Definition unobserve (i : nat) (p : page) : page :=
  {| hasIntersectionObserver := hasIntersectionObserver p;
     elements := elements p;
     observed := filter (fun j => negb (Nat.eqb i j)) (observed p);
     timers := timers p |}.

Definition setTimeout (cb : callback) (delay : Z) (p : page) : page :=
  {| hasIntersectionObserver := hasIntersectionObserver p;
     elements := elements p;
     observed := observed p;
     timers := timers p ++ [(delay, cb)] |}.

(** [list.forEach(f)] over a node list *)
Definition forEach (f : page -> nat -> page) (l : list nat) (p : page) : page :=
  fold_left f l p.

Definition initScrollAnimations (p : page) : page :=
  if negb (hasIntersectionObserver p) then
    forEach (update_element show_now)
            (querySelectorAll (has_class "animate-on-scroll") p) p
  else
    let animatedElements := querySelectorAll is_section_item p in
    let p1 := forEach (update_element (classList_add "animate-on-scroll"))
                      animatedElements p in
    forEach observe animatedElements p1.

(** [Math.min(index * 100, 500)] *)
Definition stagger_delay (index : nat) : Z := Z.min (Z.of_nat index * 100) 500.

(** [entries.forEach((entry, index) => ...)], from position [index]. *)
Fixpoint on_entries (index : nat) (entries : list entry) (p : page) : page :=
  match entries with
  | [] => p
  | e :: rest =>
      let p' :=
        if isIntersecting e then
          unobserve (target e)
            (setTimeout (AddVisible (target e)) (stagger_delay index) p)
        else p in
      on_entries (S index) rest p'
  end.

(** The observer's callback on one batch of entries. *)
Definition observer_callback (entries : list entry) (p : page) : page :=
  on_entries 0 entries p.

(** Running a timer's callback. *)
Definition run_callback (cb : callback) (p : page) : page :=
  match cb with
  | AddVisible t => update_element (classList_add "visible") p t
  end.

(** The entries of a batch that intersect, in batch order. *)
Definition intersecting (entries : list entry) : list entry :=
  filter isIntersecting entries.

(** Sample pages: a content card and a card already tagged in the
    markup, in a browser without and with the observer. *)
Definition card : element :=
  {| classList := ["feature-card"%string];
     style_opacity := None; style_transform := None |}.

Definition tagged_card : element :=
  {| classList := ["feature-card"; "animate-on-scroll"]%string;
     style_opacity := None; style_transform := None |}.

Definition old_browser_page : page :=
  {| hasIntersectionObserver := false;
     elements := [card; tagged_card];
     observed := [];
     timers := [] |}.

Definition observed_page : page :=
  {| hasIntersectionObserver := true;
     elements := [tagged_card; tagged_card];
     observed := [0; 1];
     timers := [] |}.

(** A batch whose first entry is out of view. *)
Definition mixed_batch : list entry :=
  [{| target := 0; isIntersecting := false |};
   {| target := 1; isIntersecting := true |}].

End ScrollReveal.

(* ===================================================================== *)
(** * Waitlist form *)
(* ===================================================================== *)

Module Waitlist.
Import JsString Email Effects.
Local Open Scope js_scope.
Local Open Scope string_scope.
Local Open Scope list_scope.

(** ** The page and the browser around it *)

(** The email field. *)
Record input_el := {
  value : jsstring;
  style_animation : string;
  style_borderColor : string;
  aria_invalid : option string
}.

(** The submit button. *)
Record button_el := {
  innerHTML : string;
  disabled : bool;
  aria_busy : option string
}.

(** The declarations of a confetti piece's [style.cssText].  The numbers
    come from [Math.random()]; they are kept as exact rationals, which
    leaves out the rounding of the binary64 arithmetic. *)
Record confetti_style := {
  css_position : string;
  css_width : Q;                 (* px *)
  css_height : Q;                (* px *)
  css_background : string;
  css_left : Q;                  (* vw *)
  css_top : string;
  css_opacity : Q;
  css_border_radius : string;
  css_pointer_events : string;
  css_z_index : Z;
  css_animation_name : string;
  css_animation_duration : Q;    (* s *)
  css_animation_timing : string;
  css_animation_fill : string
}.

(** The [div]s the script creates. *)
Inductive node :=
| StatusDiv (id : nat) (role aria_live aria_atomic className textContent : string)
| ConfettiDiv (id : nat) (style : confetti_style) (aria_hidden : string).

Definition node_id (n : node) : nat :=
  match n with
  | StatusDiv id _ _ _ _ _ => id
  | ConfettiDiv id _ _ => id
  end.

Record request := {
  req_url : string;
  req_method : string;
  req_accept : string;           (* the Accept header *)
  req_body : option jsstring     (* new FormData(form): the field's value *)
}.

(** How a [fetch] promise settles. *)
Inductive fetch_result :=
| Response (ok : bool)
| NetworkFailure (e : js_error).

Record event_data := {
  email_domain : option jsstring   (* [None] is [undefined] *)
}.

Inductive log_entry :=
| ConsoleError (message : string) (e : js_error)
| ConsoleLog (message name : string) (data : event_data).

(** A pending [setTimeout] callback. *)
Inductive callback :=
| ShakeReset
| RemoveNode (id : nat)
| ConfettiCleanup.

Record environment := {
  reduced_motion : bool;     (* matchMedia('(prefers-reduced-motion: reduce)').matches *)
  gtag_is_function : bool;   (* typeof gtag === 'function' *)
  hostname : string;         (* window.location.hostname *)
  respond : request -> fetch_result;
  random : nat -> Q          (* the n-th value of Math.random() *)
}.

Record world := {
  env : environment;                        (* the browser around the page *)
  form_present : bool;                      (* getElementById('waitlistForm') is an element *)
  success_present : bool;                   (* getElementById('waitlistSuccess') is an element *)
  form_action : string;                     (* form.action *)
  form_display : string;                    (* form.style.display *)
  email_input : option input_el;            (* form.querySelector('input[type=email]') *)
  submit_btn : option button_el;            (* form.querySelector('button[type=submit]') *)
  success_classes : list string;            (* successMessage.classList *)
  body : list node;                         (* children the script appended to document.body *)
  next_id : nat;                            (* identity of the next created node *)
  focused : bool;                           (* the email field has focus *)
  timers : list (Z * callback);             (* pending setTimeout callbacks, with their delay in ms *)
  console : list log_entry;                 (* console output *)
  requests : list request;                  (* fetch calls issued *)
  gtag_calls : list (string * event_data);  (* calls of gtag('event', name, data) *)
  random_calls : nat;                       (* number of Math.random() calls so far *)
  submit_listeners : nat;                   (* submit handlers attached to the form *)
  default_prevented : bool                  (* e.preventDefault() was called *)
}.

(** Field updates. *)
Definition upd_form_display (f : string -> string) (w : world) : world :=
  Build_world (env w) (form_present w) (success_present w) (form_action w)
    (f (form_display w)) (email_input w) (submit_btn w) (success_classes w)
    (body w) (next_id w) (focused w) (timers w) (console w) (requests w)
    (gtag_calls w) (random_calls w) (submit_listeners w)
    (default_prevented w).

Definition upd_email_input (f : option input_el -> option input_el) (w : world) : world :=
  Build_world (env w) (form_present w) (success_present w) (form_action w)
    (form_display w) (f (email_input w)) (submit_btn w) (success_classes w)
    (body w) (next_id w) (focused w) (timers w) (console w) (requests w)
    (gtag_calls w) (random_calls w) (submit_listeners w)
    (default_prevented w).

Definition upd_submit_btn (f : option button_el -> option button_el) (w : world) : world :=
  Build_world (env w) (form_present w) (success_present w) (form_action w)
    (form_display w) (email_input w) (f (submit_btn w)) (success_classes w)
    (body w) (next_id w) (focused w) (timers w) (console w) (requests w)
    (gtag_calls w) (random_calls w) (submit_listeners w)
    (default_prevented w).

Definition upd_success_classes (f : list string -> list string) (w : world) : world :=
  Build_world (env w) (form_present w) (success_present w) (form_action w)
    (form_display w) (email_input w) (submit_btn w) (f (success_classes w))
    (body w) (next_id w) (focused w) (timers w) (console w) (requests w)
    (gtag_calls w) (random_calls w) (submit_listeners w)
    (default_prevented w).

Definition upd_body (f : list node -> list node) (w : world) : world :=
  Build_world (env w) (form_present w) (success_present w) (form_action w)
    (form_display w) (email_input w) (submit_btn w) (success_classes w)
    (f (body w)) (next_id w) (focused w) (timers w) (console w) (requests w)
    (gtag_calls w) (random_calls w) (submit_listeners w)
    (default_prevented w).

Definition upd_next_id (f : nat -> nat) (w : world) : world :=
  Build_world (env w) (form_present w) (success_present w) (form_action w)
    (form_display w) (email_input w) (submit_btn w) (success_classes w)
    (body w) (f (next_id w)) (focused w) (timers w) (console w) (requests w)
    (gtag_calls w) (random_calls w) (submit_listeners w)
    (default_prevented w).

Definition upd_focused (f : bool -> bool) (w : world) : world :=
  Build_world (env w) (form_present w) (success_present w) (form_action w)
    (form_display w) (email_input w) (submit_btn w) (success_classes w)
    (body w) (next_id w) (f (focused w)) (timers w) (console w) (requests w)
    (gtag_calls w) (random_calls w) (submit_listeners w)
    (default_prevented w).

Definition upd_timers (f : list (Z * callback) -> list (Z * callback)) (w : world) : world :=
  Build_world (env w) (form_present w) (success_present w) (form_action w)
    (form_display w) (email_input w) (submit_btn w) (success_classes w)
    (body w) (next_id w) (focused w) (f (timers w)) (console w) (requests w)
    (gtag_calls w) (random_calls w) (submit_listeners w)
    (default_prevented w).

Definition upd_console (f : list log_entry -> list log_entry) (w : world) : world :=
  Build_world (env w) (form_present w) (success_present w) (form_action w)
    (form_display w) (email_input w) (submit_btn w) (success_classes w)
    (body w) (next_id w) (focused w) (timers w) (f (console w)) (requests w)
    (gtag_calls w) (random_calls w) (submit_listeners w)
    (default_prevented w).

Definition upd_requests (f : list request -> list request) (w : world) : world :=
  Build_world (env w) (form_present w) (success_present w) (form_action w)
    (form_display w) (email_input w) (submit_btn w) (success_classes w)
    (body w) (next_id w) (focused w) (timers w) (console w) (f (requests w))
    (gtag_calls w) (random_calls w) (submit_listeners w)
    (default_prevented w).

Definition upd_gtag_calls (f : list (string * event_data) -> list (string * event_data)) (w : world) : world :=
  Build_world (env w) (form_present w) (success_present w) (form_action w)
    (form_display w) (email_input w) (submit_btn w) (success_classes w)
    (body w) (next_id w) (focused w) (timers w) (console w) (requests w)
    (f (gtag_calls w)) (random_calls w) (submit_listeners w)
    (default_prevented w).

Definition upd_random_calls (f : nat -> nat) (w : world) : world :=
  Build_world (env w) (form_present w) (success_present w) (form_action w)
    (form_display w) (email_input w) (submit_btn w) (success_classes w)
    (body w) (next_id w) (focused w) (timers w) (console w) (requests w)
    (gtag_calls w) (f (random_calls w)) (submit_listeners w)
    (default_prevented w).

Definition upd_submit_listeners (f : nat -> nat) (w : world) : world :=
  Build_world (env w) (form_present w) (success_present w) (form_action w)
    (form_display w) (email_input w) (submit_btn w) (success_classes w)
    (body w) (next_id w) (focused w) (timers w) (console w) (requests w)
    (gtag_calls w) (random_calls w) (f (submit_listeners w))
    (default_prevented w).

Definition upd_default_prevented (f : bool -> bool) (w : world) : world :=
  Build_world (env w) (form_present w) (success_present w) (form_action w)
    (form_display w) (email_input w) (submit_btn w) (success_classes w)
    (body w) (next_id w) (focused w) (timers w) (console w) (requests w)
    (gtag_calls w) (random_calls w) (submit_listeners w)
    (f (default_prevented w)).
Definition M := Effects.M world.

Definition set {A} (upd : (A -> A) -> world -> world) (a : A) : M unit :=
  modify (upd (fun _ => a)).

Definition push {A} (upd : (list A -> list A) -> world -> world) (a : A)
  : M unit :=
  modify (upd (fun l => l ++ [a])).

(** [setTimeout(cb, delay)] *)
Definition setTimeout (cb : callback) (delay : Z) : M unit :=
  push upd_timers (delay, cb).

(** [document.createElement('div')]: a node with a fresh identity. *)
Definition createElement : M nat :=
  id <- gets next_id ;;
  modify (upd_next_id S) ;;
  ret id.

(** [Math.random()] *)
Definition Math_random : M Q :=
  n <- gets random_calls ;;
  modify (upd_random_calls S) ;;
  gets (fun w => random (env w) n).

(** ** UI feedback *)

Definition shake (el : input_el) : input_el :=
  {| value := value el;
     style_animation := "shake 0.5s ease";
     style_borderColor := "#ef4444";
     aria_invalid := Some "true" |}.

Definition unshake (el : input_el) : input_el :=
  {| value := value el;
     style_animation := "";
     style_borderColor := "";
     aria_invalid := Some "false" |}.

(** [shakeElement(emailInput)], its only call. *)
Definition shakeElement : M unit :=
  modify (upd_email_input (option_map shake)) ;;
  setTimeout ShakeReset 500.

Definition announceToScreenReader (message : string) : M unit :=
  announcement <- createElement ;;
  push upd_body
       (StatusDiv announcement "status" "polite" "true" "visually-hidden"
                  message) ;;
  setTimeout (RemoveNode announcement) 1000.

Definition prefersReducedMotion : M bool :=
  gets (fun w => reduced_motion (env w)).

(** ** Confetti *)

Definition colors : list string := ["#10b981"; "#34d399"; "#6ee7b7"; "#ffffff"].
Definition confettiCount : nat := 50.

(** [colors[Math.floor(r * colors.length)]] *)
Definition pick_color (r : Q) : string :=
  match Qfloor (r * inject_Z (Z.of_nat (List.length colors)))%Q with
  | Z.neg _ => "undefined"
  | i => nth (Z.to_nat i) colors "undefined"
  end.

(** The [div] of one turn of the loop: the [cssText] template filled
    in, and [aria-hidden]. *)
Definition confetti_div (id : nat) (size duration : Q)
           (r_color r_left r_opacity r_shape : Q) : node :=
  ConfettiDiv id
    {| css_position := "fixed";
       css_width := size;
       css_height := size;
       css_background := pick_color r_color;
       css_left := (r_left * 100)%Q;
       css_top := "-20px";
       css_opacity := (r_opacity * (7 # 10) + (3 # 10))%Q;
       css_border_radius := if Qle_bool r_shape (1 # 2)%Q then "0" else "50%";
       css_pointer_events := "none";
       css_z_index := 9999;
       css_animation_name := "confettiFall";
       css_animation_duration := duration;
       css_animation_timing := "linear";
       css_animation_fill := "forwards" |}
    "true".

(** One turn of the loop body: six [Math.random()] calls, in the order
    the source evaluates them. *)
Definition make_confetti : M node :=
  confetti <- createElement ;;
  r_size <- Math_random ;;
  let size := (r_size * 10 + 5)%Q in
  r_duration <- Math_random ;;
  let duration := (r_duration * 2 + 2)%Q in
  r_color <- Math_random ;;
  r_left <- Math_random ;;
  r_opacity <- Math_random ;;
  r_shape <- Math_random ;;
  ret (confetti_div confetti size duration r_color r_left r_opacity r_shape).

(** [for (let i = 0; i < confettiCount; i++)], with [remaining] turns
    left. *)
Fixpoint confetti_loop (remaining : nat) (fragment : list node)
  : M (list node) :=
  match remaining with
  | O => ret fragment
  | S n =>
      confetti <- make_confetti ;;
      confetti_loop n (fragment ++ [confetti])
  end.

Definition createConfetti : M unit :=
  fragment <- confetti_loop confettiCount [] ;;
  modify (upd_body (fun b => b ++ fragment)) ;;
  setTimeout ConfettiCleanup 4000.

(** [s.includes(needle)] *)
Definition includes (needle s : string) : bool :=
  match String.index 0 needle s with
  | Some _ => true
  | None => false
  end.

(** The selector [[style*="confettiFall"]]: the node has a style
    attribute whose text contains the needle.  Of the declarations only
    the strings can contain a word. *)
Definition style_includes (needle : string) (n : node) : bool :=
  match n with
  | StatusDiv _ _ _ _ _ _ => false
  | ConfettiDiv _ st _ =>
      existsb (includes needle)
        [css_position st; css_background st; css_top st;
         css_border_radius st; css_pointer_events st;
         css_animation_name st; css_animation_timing st;
         css_animation_fill st]
  end.

Definition is_confetti (n : node) : bool :=
  match n with
  | ConfettiDiv _ _ _ => true
  | StatusDiv _ _ _ _ _ _ => false
  end.

(** ** Analytics *)

Definition trackEvent (eventName : string) (eventData : event_data) : M unit :=
  g <- gets (fun w => gtag_is_function (env w)) ;;
  when g (push upd_gtag_calls (eventName, eventData)) ;;
  h <- gets (fun w => hostname (env w)) ;;
  when (String.eqb h "localhost" || String.eqb h "127.0.0.1")
       (push upd_console (ConsoleLog "Track Event:" eventName eventData)).

(** ** The submit handler *)

(** [await fetch(form.action, {method, body, headers})]: the call is
    recorded, and the promise settles as the network decides. *)
Definition fetch (req : request) : M bool :=
  push upd_requests req ;;
  r <- gets (fun w => respond (env w) req) ;;
  match r with
  | Response ok => ret ok
  | NetworkFailure e => throw e
  end.

(** Reading a property of the result of [querySelector]. *)
Definition deref {A} (o : option A) : M A :=
  match o with
  | Some a => ret a
  | None => throw (TypeError "Cannot read properties of null")
  end.

Definition is_empty (s : jsstring) : bool :=
  match s with
  | [] => true
  | _ :: _ => false
  end.

Definition set_button (disabled' : bool) (busy html : string) : M unit :=
  modify (upd_submit_btn (option_map (fun _ =>
    {| innerHTML := html; disabled := disabled'; aria_busy := Some busy |}))).

Definition classList_add (c : string) (l : list string) : list string :=
  if existsb (String.eqb c) l then l else l ++ [c].

(** The handler is run to its end at once: between the [await] and its
    continuation the handler reads nothing that another event could
    have written ([email] and [originalButtonContent] are captured
    before the call). *)
Definition handleFormSubmit : M unit :=
  set upd_default_prevented true ;;
  emailInput <- gets email_input ;;
  submitBtn <- gets submit_btn ;;
  input <- deref emailInput ;;
  let email := trim (value input) in
  if is_empty email || negb (isValidEmail email) then
    shakeElement ;;
    set upd_focused true ;;
    announceToScreenReader "Please enter a valid email address"
  else
    button <- deref submitBtn ;;
    let originalButtonContent := innerHTML button in
    set_button true "true" "<span>Joining...</span>" ;;
    action <- gets form_action ;;
    try_catch
      (ok <- fetch {| req_url := action;
                      req_method := "POST";
                      req_accept := "application/json";
                      req_body := Some (value input) |} ;;
       if negb ok then throw (Error "Form submission failed")
       else
         set upd_form_display "none" ;;
         modify (upd_success_classes (classList_add "show")) ;;
         announceToScreenReader
           "Success! You're on the waitlist. We'll be in touch soon." ;;
         reduce <- prefersReducedMotion ;;
         when (negb reduce) createConfetti ;;
         trackEvent "waitlist_signup"
                    {| email_domain := index (split at_sign email) 1 |})
      (fun error =>
         push upd_console (ConsoleError "Form submission error:" error) ;;
         set_button false "false" originalButtonContent ;;
         announceToScreenReader "There was an error. Please try again.").

Definition initWaitlistForm : M unit :=
  form <- gets form_present ;;
  successMessage <- gets success_present ;;
  if negb form || negb successMessage then ret tt
  else modify (upd_submit_listeners S).

(** ** Events *)

Definition run_callback (cb : callback) (w : world) : world :=
  match cb with
  | ShakeReset => upd_email_input (option_map unshake) w
  | RemoveNode id =>
      upd_body (filter (fun n => negb (Nat.eqb (node_id n) id))) w
  | ConfettiCleanup =>
      upd_body (filter (fun n => negb (style_includes "confettiFall" n))) w
  end.

Fixpoint remove_nth {A} (k : nat) (l : list A) : list A :=
  match l, k with
  | [], _ => []
  | _ :: t, O => t
  | a :: t, S j => a :: remove_nth j t
  end.

(** What can happen to the page after it has loaded. *)
Inductive event :=
| UserTypes (v : jsstring)     (* the visitor edits the email field *)
| SubmitEvent                  (* the form is submitted *)
| TimerFires (k : nat).        (* the k-th pending timer runs *)

Definition set_value (v : jsstring) (el : input_el) : input_el :=
  {| value := v;
     style_animation := style_animation el;
     style_borderColor := style_borderColor el;
     aria_invalid := aria_invalid el |}.

(** A submit event runs every attached handler; what a handler throws
    is an unhandled rejection and the page goes on. *)
Definition step (ev : event) (w : world) : world :=
  match ev with
  | UserTypes v => upd_email_input (option_map (set_value v)) w
  | SubmitEvent =>
      Nat.iter (submit_listeners w)
               (fun w' => final (handleFormSubmit w'))
               (upd_default_prevented (fun _ => false) w)
  | TimerFires k =>
      match nth_error (timers w) k with
      | Some (_, cb) => run_callback cb (upd_timers (remove_nth k) w)
      | None => w
      end
  end.

Definition run (evs : list event) (w : world) : world :=
  fold_left (fun w' ev => step ev w') evs w.

Definition confetti_count (w : world) : nat :=
  List.length (filter is_confetti (body w)).

(** The request a submission sends. *)
Definition submission (w : world) (input : input_el) : request :=
  {| req_url := form_action w;
     req_method := "POST";
     req_accept := "application/json";
     req_body := Some (value input) |}.

(** The button after a failed submission: enabled, not busy, with the
    label it had. *)
Definition reenabled (button : button_el) : button_el :=
  {| innerHTML := innerHTML button; disabled := false;
     aria_busy := Some "false" |}.

(** A status announcement with the given text. *)
Definition status_div (id : nat) (message : string) : node :=
  StatusDiv id "status" "polite" "true" "visually-hidden" message.

(** A piece of confetti as the specification wants it: hidden from
    assistive technology, not interactive, within the size, duration
    and opacity ranges. *)
Definition decorative (n : node) : Prop :=
  match n with
  | StatusDiv _ _ _ _ _ _ => False
  | ConfettiDiv _ st hidden =>
      hidden = "true" /\ css_pointer_events st = "none"
      /\ (5 <= css_width st /\ css_width st <= 15)%Q
      /\ (5 <= css_height st /\ css_height st <= 15)%Q
      /\ (2 <= css_animation_duration st /\ css_animation_duration st <= 4)%Q
      /\ ((3 # 10) <= css_opacity st /\ css_opacity st <= 1)%Q
  end.

(** What [trackEvent] hands to [gtag] and to the console for a sign-up
    with the given data. *)
Definition tracked_gtag (w : world) (data : event_data)
  : list (string * event_data) :=
  if gtag_is_function (env w) then [("waitlist_signup", data)] else [].

Definition tracked_log (w : world) (data : event_data) : list log_entry :=
  if String.eqb (hostname (env w)) "localhost"
     || String.eqb (hostname (env w)) "127.0.0.1"
  then [ConsoleLog "Track Event:" "waitlist_signup" data] else [].

(** ** What the confetti loop builds *)

(** The piece of turn [i] of a loop started in [w]. *)
Definition nth_confetti (w : world) (i : nat) : node :=
  let rnd k := random (env w) (6 * i + k + random_calls w) in
  confetti_div (i + next_id w)
               (rnd 0%nat * 10 + 5)%Q (rnd 1%nat * 2 + 2)%Q
               (rnd 2) (rnd 3) (rnd 4) (rnd 5).

(** The page after [n] turns: [n] nodes created, [6 * n] random
    numbers drawn. *)
Definition after_confetti (n : nat) (w : world) : world :=
  upd_random_calls (Nat.add (6 * n)) (upd_next_id (Nat.add n) w).

(** The fragment a whole loop started in [w] appends to the page. *)
Definition confetti_fragment (w : world) : list node :=
  map (nth_confetti w) (seq 0 confettiCount).

(** ** Sample pages *)

Definition sample_random (n : nat) : Q :=
  if Nat.even n then 0%Q else (9 # 10)%Q.

Definition sample_env (reduce : bool) (net : fetch_result) : environment :=
  {| reduced_motion := reduce;
     gtag_is_function := true;
     hostname := "localhost";
     respond := fun _ => net;
     random := sample_random |}.

(** A page with the form and the panel, the handler attached, and
    [typed] in the email field. *)
Definition sample_world (reduce : bool) (net : fetch_result) (typed : jsstring)
  : world :=
  {| env := sample_env reduce net;
     form_present := true;
     success_present := true;
     form_action := "https://formspree.io/f/waitlist";
     form_display := "";
     email_input := Some {| value := typed; style_animation := "";
                            style_borderColor := ""; aria_invalid := None |};
     submit_btn := Some {| innerHTML := "Join the waitlist"; disabled := false;
                           aria_busy := None |};
     success_classes := [];
     body := [];
     next_id := 0;
     focused := false;
     timers := [];
     console := [];
     requests := [];
     gtag_calls := [];
     random_calls := 0;
     submit_listeners := 1;
     default_prevented := false |}.

(** The same page without the success panel. *)
Definition no_panel_world : world :=
  upd_submit_listeners (fun _ => 0)
    (Build_world (sample_env false (Response true)) true false
       "https://formspree.io/f/waitlist" "" None None [] [] 0 false [] [] [] []
       0 0 false).

End Waitlist.

(* ===================================================================== *)
(** * Navbar scroll style *)
(* ===================================================================== *)

Module Navbar.
Local Open Scope string_scope.
Local Open Scope list_scope.

(** The two inline declarations [updateNavbar] writes. *)
Record nav_style := {
  background : string;
  boxShadow : string
}.

(** A callback waiting for the next animation frame. *)
Inductive frame_callback :=
| UpdateNavbar.

Record window := {
  nav : option nav_style;           (* document.querySelector('.nav') *)
  pageYOffset : Q;                  (* window.pageYOffset *)
  ticking : bool;                   (* the closure's flag *)
  scroll_listener : bool;           (* the scroll listener is attached *)
  frames : list frame_callback      (* requestAnimationFrame queue *)
}.

Definition scrolled_style : nav_style :=
  {| background := "rgba(10, 10, 15, 0.95)";
     boxShadow := "0 4px 30px rgba(0, 0, 0, 0.3)" |}.

Definition top_style : nav_style :=
  {| background := "rgba(10, 10, 15, 0.8)";
     boxShadow := "none" |}.

(** [scrollY > 100] *)
Definition past_threshold (scrollY : Q) : bool := negb (Qle_bool scrollY 100).

Definition style_for (scrollY : Q) : nav_style :=
  if past_threshold scrollY then scrolled_style else top_style.

Definition updateNavbar (s : window) : window :=
  let scrollY := pageYOffset s in
  {| nav := option_map (fun _ => style_for scrollY) (nav s);
     pageYOffset := pageYOffset s;
     ticking := false;
     scroll_listener := scroll_listener s;
     frames := frames s |}.

(** The scroll listener. *)
Definition on_scroll (s : window) : window :=
  if negb (ticking s) then
    {| nav := nav s;
       pageYOffset := pageYOffset s;
       ticking := true;
       scroll_listener := scroll_listener s;
       frames := frames s ++ [UpdateNavbar] |}
  else s.

Definition initNavbarScroll (s : window) : window :=
  match nav s with
  | None => s
  | Some _ =>
      {| nav := nav s;
         pageYOffset := pageYOffset s;
         ticking := false;
         scroll_listener := true;
         frames := frames s |}
  end.

(** The window when the script starts. *)
Definition loaded (n : option nav_style) (y : Q) : window :=
  {| nav := n; pageYOffset := y; ticking := false;
     scroll_listener := false; frames := [] |}.

Inductive event :=
| Scroll (y : Q)        (* the page is scrolled to offset y *)
| AnimationFrame.       (* the browser runs the queued frame callbacks *)

Definition run_frame_callback (cb : frame_callback) (s : window) : window :=
  match cb with
  | UpdateNavbar => updateNavbar s
  end.

Definition set_offset (y : Q) (s : window) : window :=
  {| nav := nav s; pageYOffset := y; ticking := ticking s;
     scroll_listener := scroll_listener s; frames := frames s |}.

Definition clear_frames (s : window) : window :=
  {| nav := nav s; pageYOffset := pageYOffset s; ticking := ticking s;
     scroll_listener := scroll_listener s; frames := [] |}.

Definition step (ev : event) (s : window) : window :=
  match ev with
  | Scroll y =>
      let s' := set_offset y s in
      if scroll_listener s' then on_scroll s' else s'
  | AnimationFrame =>
      fold_left (fun s' cb => run_frame_callback cb s') (frames s)
                (clear_frames s)
  end.

Definition run (evs : list event) (s : window) : window :=
  fold_left (fun s' ev => step ev s') evs s.

(** The flag is set exactly while one callback is queued. *)
Definition throttled (s : window) : Prop :=
  frames s = if ticking s then [UpdateNavbar] else [].

End Navbar.

(* ===================================================================== *)
(** * Parallax *)
(* ===================================================================== *)

Module Parallax.
Local Open Scope list_scope.

(** [heroVisual.getBoundingClientRect()] *)
Record rect := {
  left : Q;
  top : Q;
  width : Q;
  height : Q
}.

Record mouse_event := {
  clientX : Q;
  clientY : Q
}.

Record window := {
  innerWidth : Z;                          (* window.innerWidth *)
  reduced_motion : bool;                   (* prefersReducedMotion() *)
  heroVisual : bool;                       (* querySelector('.hero-visual') found *)
  hero_translate : option (Q * Q);         (* translate(dx px, dy px) written by the script *)
  mousemove_listener : bool;
  rafId : option nat;                      (* null, or the handle of the queued frame *)
  last_handle : nat;                       (* last handle requestAnimationFrame returned *)
  frames : list (nat * mouse_event)        (* queued callbacks, with the event they captured *)
}.

(** The guarded setup at script load. *)
Definition setup (s : window) : window :=
  if (innerWidth s <? 1024)%Z || reduced_motion s then s
  else if negb (heroVisual s) then s
  else
    {| innerWidth := innerWidth s; reduced_motion := reduced_motion s;
       heroVisual := heroVisual s; hero_translate := hero_translate s;
       mousemove_listener := true; rafId := None;
       last_handle := last_handle s; frames := frames s |}.

(** [if (rafId)]: a handle is truthy unless it is 0. *)
Definition truthy (id : option nat) : bool :=
  match id with
  | Some (S _) => true
  | _ => false
  end.

(** The mousemove listener: handles count up from 1. *)
Definition on_mousemove (e : mouse_event) (s : window) : window :=
  if truthy (rafId s) then s
  else
    let handle := S (last_handle s) in
    {| innerWidth := innerWidth s; reduced_motion := reduced_motion s;
       heroVisual := heroVisual s; hero_translate := hero_translate s;
       mousemove_listener := mousemove_listener s; rafId := Some handle;
       last_handle := handle; frames := frames s ++ [(handle, e)] |}.

(** The frame callback, for the rectangle the browser reports when it
    runs.  The arithmetic is exact, without binary64 rounding. *)
Definition offset (e : mouse_event) (r : rect) : Q * Q :=
  let centerX := (left r + width r / 2)%Q in
  let centerY := (top r + height r / 2)%Q in
  let deltaX := ((clientX e - centerX) / 50)%Q in
  let deltaY := ((clientY e - centerY) / 50)%Q in
  (deltaX, deltaY).

Definition on_frame (r : rect) (s : window) (cb : nat * mouse_event) : window :=
  {| innerWidth := innerWidth s; reduced_motion := reduced_motion s;
     heroVisual := heroVisual s; hero_translate := Some (offset (snd cb) r);
     mousemove_listener := mousemove_listener s; rafId := None;
     last_handle := last_handle s; frames := frames s |}.

Definition clear_frames (s : window) : window :=
  {| innerWidth := innerWidth s; reduced_motion := reduced_motion s;
     heroVisual := heroVisual s; hero_translate := hero_translate s;
     mousemove_listener := mousemove_listener s; rafId := rafId s;
     last_handle := last_handle s; frames := [] |}.

Inductive event :=
| MouseMove (e : mouse_event)
| AnimationFrame (r : rect).     (* a frame; r is the hero's rectangle then *)

Definition step (ev : event) (s : window) : window :=
  match ev with
  | MouseMove e => if mousemove_listener s then on_mousemove e s else s
  | AnimationFrame r => fold_left (on_frame r) (frames s) (clear_frames s)
  end.

Definition run (evs : list event) (s : window) : window :=
  fold_left (fun s' ev => step ev s') evs s.

(** The window when the script starts. *)
Definition loaded (w : Z) (reduce hero : bool) : window :=
  {| innerWidth := w; reduced_motion := reduce; heroVisual := hero;
     hero_translate := None; mousemove_listener := false; rafId := None;
     last_handle := 0; frames := [] |}.

(** The frame queue holds a callback exactly while [rafId] is set. *)
Definition throttled (s : window) : Prop :=
  match rafId s with
  | None => frames s = []
  | Some h => exists e, frames s = [(h, e)] /\ h <> 0
  end.

End Parallax.

(* ===================================================================== *)
(** * Injected keyframes *)
(* ===================================================================== *)

Module Animations.
Local Open Scope string_scope.
Local Open Scope list_scope.

Record style_el := {
  style_id : string;
  keyframes : list string     (* the @keyframes rules of its text *)
}.

Record document := {
  body_ids : list string;     (* ids of the elements outside the head *)
  head : list style_el        (* style elements of the head *)
}.

(** [document.getElementById(id)] is an element. *)
Definition has_id (id : string) (d : document) : bool :=
  existsb (String.eqb id) (body_ids d)
  || existsb (fun s => String.eqb id (style_id s)) (head d).

Definition animations : style_el :=
  {| style_id := "vectorfx-animations";
     keyframes := ["shake"; "confettiFall"] |}.

(** The injecting function expression. *)
Definition inject (d : document) : document :=
  if has_id "vectorfx-animations" d then d
  else {| body_ids := body_ids d; head := head d ++ [animations] |}.

Definition injected (d : document) : nat :=
  List.length (filter (fun s => String.eqb "vectorfx-animations" (style_id s))
                      (head d)).

End Animations.

(* ===================================================================== *)
(** * Start-up *)
(* ===================================================================== *)

Module Startup.
Import Effects.

Inductive ready_state := Loading | Interactive | Complete.

Section Startup.
Variable W : Type.

(** The guarded [init] of the bootstrap. *)
Variable init : M W unit.

Record document := {
  readyState : ready_state;
  onDOMContentLoaded : bool;     (* init is registered for DOMContentLoaded *)
  page : W
}.

Definition run_init (d : document) : document :=
  {| readyState := readyState d;
     onDOMContentLoaded := onDOMContentLoaded d;
     page := final (init (page d)) |}.

(** The outer function expression. *)
Definition startup (d : document) : document :=
  match readyState d with
  | Loading =>
      {| readyState := readyState d; onDOMContentLoaded := true;
         page := page d |}
  | _ => run_init d
  end.

(** The document finishes parsing: the registered listener runs. *)
Definition DOMContentLoaded (d : document) : document :=
  let d' := {| readyState := Interactive;
               onDOMContentLoaded := onDOMContentLoaded d;
               page := page d |} in
  if onDOMContentLoaded d then run_init d' else d'.

End Startup.

End Startup.

(* ===================================================================== *)
(** * Page invariants of the waitlist *)
(* ===================================================================== *)

Module PageInvariants.
Import JsString Effects Waitlist.
Local Open Scope string_scope.
Local Open Scope list_scope.

(** Created nodes have distinct identities, all below the next one. *)
Definition fresh_ids (w : world) : Prop :=
  NoDup (map node_id (body w))
  /\ Forall (fun n => node_id n < next_id w) (body w).

(** A command keeps a property of the page, whether it completes or
    throws. *)
Definition keeps {A} (P : world -> Prop) (c : Waitlist.M A) : Prop :=
  forall w, P w -> P (final (c w)).

(** The button while a submission is in flight, and after a success. *)
Definition joining : button_el :=
  {| innerHTML := "<span>Joining...</span>"; disabled := true;
     aria_busy := Some "true" |}.

Definition null_error : js_error := TypeError "Cannot read properties of null".

(** The fixed part of a confetti piece's style. *)
Definition confetti_layout (n : node) : Prop :=
  match n with
  | StatusDiv _ _ _ _ _ _ => False
  | ConfettiDiv _ st _ =>
      In (css_background st) colors
      /\ (0 <= css_left st /\ css_left st < 100)%Q
      /\ css_width st = css_height st
      /\ css_position st = "fixed" /\ css_top st = "-20px"
      /\ css_z_index st = 9999%Z
      /\ (css_border_radius st = "50%" \/ css_border_radius st = "0")
  end.

Definition sample_input (typed : jsstring) : input_el :=
  {| value := typed; style_animation := ""; style_borderColor := "";
     aria_invalid := None |}.

Definition sample_button : button_el :=
  {| innerHTML := "Join the waitlist"; disabled := false; aria_busy := None |}.

(** The sample page with the form stripped of its field or button. *)
Definition strip (field button : bool) (w : world) : world :=
  upd_email_input (fun i => if field then None else i)
    (upd_submit_btn (fun b => if button then None else b) w).

End PageInvariants.

(* ===================================================================== *)
(** * The matcher decides the language *)
(* ===================================================================== *)

Module RegexFacts.
Import JsString Regex.

Ltac inv H := inversion H; subst; clear H.

Lemma matches_void w : ~ Matches Void w.
Proof. intro H; inv H. Qed.

Lemma matches_eps w : Matches Eps w <-> w = [].
Proof. split; intro H; [now inv H | subst; constructor]. Qed.

Lemma matches_class cs w :
  Matches (Class cs) w <-> exists c, w = [c] /\ class_has cs c = true.
Proof.
  split.
  - intro H; inv H; eauto.
  - intros (c & -> & H); now constructor.
Qed.

Lemma matches_cat r s w :
  Matches (Cat r s) w <-> exists u v, w = u ++ v /\ Matches r u /\ Matches s v.
Proof.
  split.
  - intro H; inv H; eauto.
  - intros (u & v & -> & Hu & Hv); now constructor.
Qed.

Lemma matches_alt r s w : Matches (Alt r s) w <-> Matches r w \/ Matches s w.
Proof.
  split.
  - intro H; inv H; auto.
  - intros [H | H]; [now apply MAltL | now apply MAltR].
Qed.

Lemma matches_opt r w : Matches (Opt r) w <-> Matches r w \/ w = [].
Proof. unfold Opt; rewrite matches_alt, matches_eps; tauto. Qed.

(** A non-empty match of [r*] starts with a non-empty match of [r]. *)
Lemma matches_star_cons r c w :
  Matches (Star r) (c :: w) ->
  exists u v, w = u ++ v /\ Matches r (c :: u) /\ Matches (Star r) v.
Proof.
  intro H; remember (Star r) as sr eqn:Er; remember (c :: w) as cw eqn:Ew.
  revert w Ew; induction H; intros w Ew; try discriminate.
  inv Er. destruct u as [|d u]; simpl in Ew.
  - now apply IHMatches2.
  - inv Ew. eauto.
Qed.

Lemma nullable_spec r : nullable r = true <-> Matches r [].
Proof.
  induction r; simpl.
  - split; [discriminate | intro H; inv H].
  - split; [constructor | reflexivity].
  - split; [discriminate | intro H; inv H].
  - rewrite andb_true_iff, IHr1, IHr2, matches_cat; split.
    + intros [H1 H2]; exists [], []; auto.
    + intros (u & v & E & Hu & Hv).
      symmetry in E; apply app_eq_nil in E as [-> ->]; auto.
  - rewrite orb_true_iff, IHr1, IHr2, matches_alt; tauto.
  - split; [constructor | reflexivity].
Qed.

Lemma cat_void_l s w : Matches (Cat Void s) w <-> False.
Proof.
  rewrite matches_cat; split; [| tauto].
  intros (u & v & _ & H & _); now apply matches_void in H.
Qed.

Lemma cat_void_r r w : Matches (Cat r Void) w <-> False.
Proof.
  rewrite matches_cat; split; [| tauto].
  intros (u & v & _ & _ & H); now apply matches_void in H.
Qed.

Lemma cat_eps_l s w : Matches (Cat Eps s) w <-> Matches s w.
Proof.
  rewrite matches_cat; split.
  - intros (u & v & -> & Hu & Hv); apply matches_eps in Hu; now subst.
  - intro H; exists [], w; repeat split; auto; constructor.
Qed.

Lemma cat_spec r s w : Matches (cat r s) w <-> Matches (Cat r s) w.
Proof.
  destruct r; simpl;
    try (destruct s; simpl; rewrite ?cat_void_r; try reflexivity;
         split; [apply matches_void | tauto]).
  - rewrite cat_void_l; split; [apply matches_void | tauto].
  - rewrite cat_eps_l; destruct s; reflexivity.
Qed.

Lemma alt_spec r s w : Matches (alt r s) w <-> Matches (Alt r s) w.
Proof.
  rewrite matches_alt.
  destruct r; simpl;
    try (destruct s; simpl; rewrite ?matches_alt; try reflexivity;
         split; [tauto | intros [H | H]; [exact H | now apply matches_void in H]]).
  split; [tauto | intros [H | H]; [now apply matches_void in H | exact H]].
Qed.

(** The derivative by [c] matches what is left after a leading [c]. *)
Lemma deriv_spec r : forall c w, Matches (deriv c r) w <-> Matches r (c :: w).
Proof.
  induction r; intros c w; simpl.
  - split; intro H; inv H.
  - split; intro H; inv H.
  - rewrite matches_class. destruct (class_has cs c) eqn:E.
    + rewrite matches_eps; split.
      * intros ->; eauto.
      * intros (d & H & _); now inv H.
    + split; [intro H; inv H |].
      intros (d & H & Hd); inv H; congruence.
  - assert (Hcat : Matches (cat (deriv c r1) r2) w <->
                   exists u v, w = u ++ v /\ Matches r1 (c :: u) /\ Matches r2 v).
    { rewrite cat_spec, matches_cat.
      split; intros (u & v & E & Hu & Hv); exists u, v;
        (split; [exact E | split; [now apply IHr1 | exact Hv]]). }
    rewrite matches_cat. destruct (nullable r1) eqn:N.
    + rewrite alt_spec, matches_alt, Hcat, IHr2. split.
      * intros [(u & v & -> & Hu & Hv) | H].
        -- exists (c :: u), v; auto.
        -- apply nullable_spec in N. exists [], (c :: w); auto.
      * intros (u & v & E & Hu & Hv). destruct u as [|d u]; simpl in E.
        -- right; now subst.
        -- inv E; left; eauto.
    + rewrite Hcat. split.
      * intros (u & v & -> & Hu & Hv); exists (c :: u), v; auto.
      * intros (u & v & E & Hu & Hv). destruct u as [|d u]; simpl in E.
        -- apply nullable_spec in Hu; congruence.
        -- inv E; eauto.
  - rewrite alt_spec, !matches_alt, IHr1, IHr2; tauto.
  - rewrite cat_spec, matches_cat. split.
    + intros (u & v & -> & Hu & Hv). apply IHr in Hu.
      now apply (MStarApp Hu Hv).
    + intro H. apply matches_star_cons in H as (u & v & -> & Hu & Hv).
      exists u, v; repeat split; auto. now apply IHr.
Qed.

(** [test] accepts exactly the language of the pattern. *)
Lemma test_spec s : forall r, test r s = true <-> Matches r s.
Proof.
  induction s as [|c s IH]; intro r; simpl.
  - apply nullable_spec.
  - rewrite IH. apply deriv_spec.
Qed.

(** A match of [r*] is a concatenation of matches of [r]. *)
Lemma matches_star r w :
  Matches (Star r) w <-> exists ws, Forall (Matches r) ws /\ w = List.concat ws.
Proof.
  split.
  - intro H. remember (Star r) as sr eqn:E. induction H; try discriminate.
    + exists []; auto.
    + inv E. destruct (IHMatches2 eq_refl) as (ws & Hws & ->).
      exists (u :: ws); split; [constructor; auto | reflexivity].
  - intros (ws & Hws & ->). induction Hws; simpl; [constructor | now constructor].
Qed.

(** ** Character-class repetitions *)

Lemma matches_star_class cs w :
  Matches (Star (Class cs)) w <-> forallb (class_has cs) w = true.
Proof.
  split.
  - induction w as [|c w IH]; intro H; [reflexivity |].
    apply matches_star_cons in H as (u & v & -> & Hu & Hv).
    apply matches_class in Hu as (d & E & Hd). inv E.
    simpl. rewrite Hd. now apply IH.
  - induction w as [|c w IH]; intro H; [constructor |].
    simpl in H. apply andb_true_iff in H as [Hc Hw].
    apply (MStarApp (u := [c])); [now constructor | auto].
Qed.

Lemma matches_plus_class cs w :
  Matches (Plus (Class cs)) w <-> w <> [] /\ forallb (class_has cs) w = true.
Proof.
  unfold Plus. rewrite matches_cat. split.
  - intros (u & v & -> & Hu & Hv).
    apply matches_class in Hu as (c & -> & Hc).
    apply matches_star_class in Hv. simpl. rewrite Hc. split; [discriminate | auto].
  - intros [Hne H]. destruct w as [|c w]; [congruence |].
    simpl in H. apply andb_true_iff in H as [Hc Hw].
    exists [c], w. repeat split; [now constructor | now apply matches_star_class].
Qed.

Lemma matches_upto_class cs n : forall w,
  Matches (UpTo n (Class cs)) w <->
  List.length w <= n /\ forallb (class_has cs) w = true.
Proof.
  induction n as [|n IH]; intro w; simpl UpTo.
  - rewrite matches_eps. split.
    + intros ->; auto.
    + intros [H _]. destruct w; [reflexivity | simpl in H; lia].
  - rewrite matches_opt, matches_cat. split.
    + intros [(u & v & -> & Hu & Hv) | ->]; [| simpl; split; [lia | reflexivity]].
      apply matches_class in Hu as (c & -> & Hc).
      apply IH in Hv as [Hl Hv]. simpl. rewrite Hc. split; [lia | auto].
    + intros [Hl H]. destruct w as [|c w]; [now right | left].
      simpl in H, Hl. apply andb_true_iff in H as [Hc Hw].
      exists [c], w. repeat split; [now constructor |].
      apply IH. split; [lia | auto].
Qed.

End RegexFacts.

(* ===================================================================== *)
(** * Splitting and joining *)
(* ===================================================================== *)

Module JsStringFacts.
Import JsString.

Lemma split_not_nil sep s : split sep s <> [].
Proof.
  destruct s as [|c t]; simpl; [discriminate |].
  destruct (c =? sep)%N; [discriminate |].
  destruct (split sep t); discriminate.
Qed.

Lemma join_cons sep p ps :
  ps <> [] -> join sep (p :: ps) = p ++ sep :: join sep ps.
Proof. destruct ps; [congruence | reflexivity]. Qed.

Lemma join_split sep s : join sep (split sep s) = s.
Proof.
  induction s as [|c t IH]; [reflexivity |]. simpl.
  destruct (N.eqb_spec c sep) as [-> | Hc].
  - rewrite join_cons by apply split_not_nil. simpl. now rewrite IH.
  - destruct (split sep t) as [|p ps] eqn:E.
    + now apply split_not_nil in E.
    + destruct ps as [|q qs]; simpl in *; now rewrite IH.
Qed.

(** A piece without the separator comes back whole. *)
Lemma split_app sep p s :
  ~ In sep p -> split sep (p ++ sep :: s) = p :: split sep s.
Proof.
  induction p as [|c p IH]; intro Hp; simpl.
  - now rewrite N.eqb_refl.
  - destruct (N.eqb_spec c sep) as [-> | Hc]; [exfalso; apply Hp; now left |].
    rewrite IH; [reflexivity | intro; apply Hp; now right].
Qed.

Lemma split_no_sep sep p : ~ In sep p -> split sep p = [p].
Proof.
  induction p as [|c p IH]; intro Hp; simpl; [reflexivity |].
  destruct (N.eqb_spec c sep) as [-> | Hc]; [exfalso; apply Hp; now left |].
  rewrite IH; [reflexivity | intro; apply Hp; now right].
Qed.

Lemma split_join sep ps :
  ps <> [] -> Forall (fun p => ~ In sep p) ps -> split sep (join sep ps) = ps.
Proof.
  induction ps as [|p ps IH]; intros Hne Hall; [congruence |].
  inversion Hall as [|? ? Hp Hps]; subst. destruct ps as [|q qs].
  - simpl. now apply split_no_sep.
  - rewrite join_cons by discriminate. rewrite split_app by exact Hp.
    rewrite IH; [reflexivity | discriminate | exact Hps].
Qed.

End JsStringFacts.

(* ===================================================================== *)
(** * The language of [emailRegex] *)
(* ===================================================================== *)

Module EmailFacts.
Import JsString Regex Email RegexFacts JsStringFacts.

Lemma alnum_class c : class_has alnum c = is_alnum c.
Proof.
  unfold class_has, alnum, is_alnum; simpl.
  now rewrite orb_false_r, orb_assoc.
Qed.

Lemma alnum_hyphen_class c :
  class_has alnum_hyphen c = is_alnum c || (c =? hyphen)%N.
Proof.
  unfold class_has, alnum_hyphen, alnum, is_alnum; simpl.
  now rewrite orb_false_r, !orb_assoc.
Qed.

Lemma at_class c : class_has [One at_sign] c = (c =? at_sign)%N.
Proof. unfold class_has; simpl. apply orb_false_r. Qed.

Lemma dot_class c : class_has [One dot] c = (c =? dot)%N.
Proof. unfold class_has; simpl. apply orb_false_r. Qed.

Lemma alnum_not_hyphen c : is_alnum c = true -> (c =? hyphen)%N = false.
Proof.
  unfold is_alnum, in_range, hyphen, code; simpl. intro H.
  apply N.eqb_neq. intros ->. discriminate H.
Qed.

Lemma label_char_inner c :
  label_char c && negb (c =? hyphen)%N = is_alnum c.
Proof.
  unfold label_char. destruct (is_alnum c) eqn:E; simpl.
  - now rewrite alnum_not_hyphen.
  - now destruct (c =? hyphen)%N.
Qed.

Lemma forallb_label_char w :
  forallb (class_has alnum_hyphen) w = forallb label_char w.
Proof.
  induction w as [|c w IH]; cbn [forallb]; [reflexivity |].
  now rewrite IH, alnum_hyphen_class.
Qed.

Lemma is_label_iff l :
  is_label l = true <->
  1 <= List.length l <= 63 /\ forallb label_char l = true
  /\ (hd 0%N l =? hyphen)%N = false /\ (last l 0%N =? hyphen)%N = false.
Proof.
  unfold is_label.
  rewrite !andb_true_iff, !negb_true_iff, !Nat.leb_le. tauto.
Qed.

Lemma is_alnum_iff c :
  is_alnum c = true <-> label_char c = true /\ (c =? hyphen)%N = false.
Proof.
  rewrite <- label_char_inner, andb_true_iff, negb_true_iff. tauto.
Qed.

(** The label pattern matches the labels of the specification. *)
Lemma label_re_spec w : Matches label_re w <-> is_label w = true.
Proof.
  rewrite is_label_iff. unfold label_re. rewrite matches_cat. split.
  - intros (u & v & -> & Hu & Hv).
    apply matches_class in Hu as (c & -> & Hc). rewrite alnum_class in Hc.
    apply is_alnum_iff in Hc as [Hc Hc'].
    apply matches_opt in Hv as [Hv | ->].
    + apply matches_cat in Hv as (m & e & -> & Hm & He).
      apply matches_upto_class in Hm as [Hl Hm]. rewrite forallb_label_char in Hm.
      apply matches_class in He as (d & -> & Hd). rewrite alnum_class in Hd.
      apply is_alnum_iff in Hd as [Hd Hd'].
      change ([c] ++ m ++ [d]) with ((c :: m) ++ [d]).
      rewrite last_last, forallb_app, length_app. cbn [forallb hd List.length].
      rewrite Hc, Hm, Hd. repeat split; auto; simpl; lia.
    + cbn. rewrite Hc. repeat split; auto; lia.
  - intros ([Hlo Hhi] & Hall & Hhd & Hlast).
    destruct w as [|c w]; [simpl in Hlo; lia |].
    cbn [forallb hd] in *. apply andb_true_iff in Hall as [Hc Hw].
    exists [c], w. split; [reflexivity |]. split.
    + constructor. rewrite alnum_class. now apply is_alnum_iff.
    + apply matches_opt. destruct w as [|d w]; [now right | left].
      destruct (exists_last (l := d :: w)) as (m & e & E); [discriminate |].
      rewrite E in *.
      change (c :: m ++ [e]) with ((c :: m) ++ [e]) in Hlast, Hhi.
      rewrite last_last in Hlast. rewrite length_app in Hhi. simpl in Hhi.
      rewrite forallb_app in Hw. apply andb_true_iff in Hw as [Hm He].
      simpl in He. rewrite andb_true_r in He.
      apply matches_cat. exists m, [e]. split; [reflexivity |]. split.
      * apply matches_upto_class. rewrite forallb_label_char. split; [lia | exact Hm].
      * constructor. rewrite alnum_class. now apply is_alnum_iff.
Qed.

Lemma label_no_dot l : is_label l = true -> ~ In dot l.
Proof.
  intros H Hin. apply is_label_iff in H as (_ & H & _).
  rewrite forallb_forall in H. apply H in Hin. discriminate Hin.
Qed.

Lemma label_no_at l : is_label l = true -> ~ In at_sign l.
Proof.
  intros H Hin. apply is_label_iff in H as (_ & H & _).
  rewrite forallb_forall in H. apply H in Hin. discriminate Hin.
Qed.

Lemma join_concat sep l ls :
  join sep (l :: ls) = l ++ List.concat (map (cons sep) ls).
Proof.
  revert l; induction ls as [|k ls IH]; intro l.
  - simpl. now rewrite app_nil_r.
  - rewrite join_cons by discriminate. now rewrite IH.
Qed.

(** The repeated group [(?:\.label)*]. *)
Lemma dot_labels_spec w :
  Matches (Star (Cat (Class [One dot]) label_re)) w <->
  exists ls, forallb is_label ls = true /\ w = List.concat (map (cons dot) ls).
Proof.
  rewrite matches_star. split.
  - intros (ws & Hws & ->). induction Hws as [|u ws Hu _ (ls & Hls & E)].
    + exists []; auto.
    + apply matches_cat in Hu as (a & l & -> & Ha & Hl).
      apply matches_class in Ha as (c & -> & Hc).
      rewrite dot_class in Hc. apply N.eqb_eq in Hc as ->.
      apply label_re_spec in Hl.
      exists (l :: ls). simpl. now rewrite Hl, Hls, E.
  - intros (ls & Hls & ->). induction ls as [|l ls IH].
    + exists []; auto.
    + simpl in Hls. apply andb_true_iff in Hls as [Hl Hls].
      destruct (IH Hls) as (ws & Hws & E).
      exists ((dot :: l) :: ws). split; [| simpl; now rewrite E].
      constructor; [| exact Hws].
      apply (MCat (u := [dot])); [now constructor | now apply label_re_spec].
Qed.

(** The domain part of the pattern. *)
Lemma domain_spec d :
  Matches (Cat label_re (Star (Cat (Class [One dot]) label_re))) d <->
  is_domain d = true.
Proof.
  unfold is_domain. rewrite matches_cat. split.
  - intros (l & v & -> & Hl & Hv).
    apply label_re_spec in Hl. apply dot_labels_spec in Hv as (ls & Hls & ->).
    rewrite <- join_concat, split_join.
    + simpl. now rewrite Hl, Hls.
    + discriminate.
    + apply Forall_forall. intros k Hk. apply label_no_dot.
      destruct Hk as [<- | Hk]; [exact Hl |].
      rewrite forallb_forall in Hls. now apply Hls.
  - intro H. rewrite <- (join_split dot d).
    destruct (split dot d) as [|l ls] eqn:E; [now apply split_not_nil in E |].
    simpl in H. apply andb_true_iff in H as [Hl Hls].
    rewrite join_concat. exists l, (List.concat (map (cons dot) ls)).
    split; [reflexivity |]. split; [now apply label_re_spec |].
    apply dot_labels_spec. eauto.
Qed.

Lemma is_local_part_iff l :
  is_local_part l = true <-> l <> [] /\ forallb (class_has local_class) l = true.
Proof.
  unfold is_local_part. rewrite andb_true_iff, negb_true_iff, Nat.eqb_neq.
  destruct l; simpl; split; intros [H1 H2]; split; auto; try congruence; try lia.
Qed.

(** The pattern matches exactly the addresses of the specification's
    shape. *)
Lemma emailRegex_spec s : Matches emailRegex s <-> address_shape s.
Proof.
  unfold emailRegex, address_shape. rewrite matches_cat. split.
  - intros (l & v & -> & Hl & Hv).
    apply matches_plus_class in Hl.
    apply matches_cat in Hv as (a & d & -> & Ha & Hd).
    apply matches_class in Ha as (c & -> & Hc).
    rewrite at_class in Hc. apply N.eqb_eq in Hc as ->.
    exists l, d. split; [reflexivity |].
    split; [now apply is_local_part_iff | now apply domain_spec].
  - intros (l & d & -> & Hl & Hd). exists l, (at_sign :: d).
    split; [reflexivity |]. split.
    + apply matches_plus_class. now apply is_local_part_iff.
    + apply (MCat (u := [at_sign])); [now constructor | now apply domain_spec].
Qed.

Lemma valid_email_shape s : isValidEmail s = true -> address_shape s.
Proof.
  unfold isValidEmail. intro H. apply andb_true_iff in H as [H _].
  now apply emailRegex_spec, test_spec.
Qed.

Lemma empty_not_valid : isValidEmail [] = false.
Proof. reflexivity. Qed.

Lemma domain_no_at d : is_domain d = true -> ~ In at_sign d.
Proof.
  unfold is_domain. intros H Hin. rewrite <- (join_split dot d) in Hin.
  rewrite forallb_forall in H.
  induction (split dot d) as [|l ls IH]; [exact Hin |].
  destruct ls as [|k ls].
  - simpl in Hin. apply (label_no_at l); [apply H; now left | exact Hin].
  - rewrite join_cons in Hin by discriminate.
    apply in_app_or in Hin as [Hin | [Hin | Hin]].
    + apply (label_no_at l); [apply H; now left | exact Hin].
    + discriminate Hin.
    + apply IH; [| exact Hin]. intros x Hx. apply H. now right.
Qed.

Lemma local_part_no_at l : is_local_part l = true -> ~ In at_sign l.
Proof.
  intros H Hin. apply is_local_part_iff in H as [_ H].
  rewrite forallb_forall in H. apply H in Hin. discriminate Hin.
Qed.

(** C1.  [isValidEmail] accepts a string exactly when it has the shape
    local-part@domain, the domain being dot-separated labels of 1 to 63
    alphanumeric-or-hyphen units with hyphens only inside, and is at
    most 254 units long.  ["a@b.co"] is accepted, ["not-an-email"] is
    rejected, and a 255-unit address of the right shape is rejected. *)
Theorem isValidEmail_spec :
  (forall s, isValidEmail s = true <->
             address_shape s /\ List.length s <= 254)
  /\ isValidEmail (lit "a@b.co") = true
  /\ isValidEmail (lit "not-an-email") = false
  /\ (List.length long_address = 255 /\ address_shape long_address
      /\ isValidEmail long_address = false).
Proof.
  split; [| split; [| split]].
  - intro s. unfold isValidEmail.
    now rewrite andb_true_iff, test_spec, emailRegex_spec, Nat.leb_le.
  - vm_compute. reflexivity.
  - vm_compute. reflexivity.
  - split; [reflexivity |]. split; [| vm_compute; reflexivity].
    apply emailRegex_spec, test_spec. vm_compute. reflexivity.
Qed.

End EmailFacts.

(* ===================================================================== *)
(** * Bootstrap: one guard around all initializers *)
(* ===================================================================== *)

Module BootstrapFacts.
Import Effects Bootstrap.
Local Open Scope string_scope.
Local Open Scope list_scope.

Section Sequence.
Variable W : Type.
Implicit Types (cs : list (M W unit)) (w : W).

Lemma sequence_throws cs : forall (a : M W unit) post w w1 e w2,
  sequence cs w = Normal tt w1 -> a w1 = Thrown e w2 ->
  sequence (cs ++ a :: post) w = Thrown e w2.
Proof.
  induction cs as [|c cs IH]; simpl; intros a post w w1 e w2 H1 H2.
  - inversion H1; subst. unfold bind. now rewrite H2.
  - unfold bind in *. destruct (c w) as [[] w' | e' w']; [eauto | discriminate].
Qed.

End Sequence.

(** C3, as the code has it.  When an initializer throws, [init] catches
    and logs the error and returns normally; the initializers before
    the failing one have run, and the ones after it are skipped: the
    page is left as it was at the throw, plus the log line. *)
Theorem init_stops_at_first_failure
  (W : Type) (console_error : string -> js_error -> W -> W)
  (a1 a2 a3 a4 a5 a6 : M W unit) (pre post : list (M W unit)) (a : M W unit)
  (w w1 w2 : W) (e : js_error) :
  initializers a1 a2 a3 a4 a5 a6 = pre ++ a :: post ->
  sequence pre w = Normal tt w1 ->
  a w1 = Thrown e w2 ->
  init console_error a1 a2 a3 a4 a5 a6 w
  = Normal tt (console_error "Vector FX: Initialization error" e w2).
Proof.
  intros Hsplit Hpre Ha. unfold init, try_catch. rewrite Hsplit.
  now rewrite (sequence_throws pre a post w Hpre Ha).
Qed.

Lemma init_stops_at_first_failure_witness :
  probe_init (initializer_eqb WaitlistForm) probe0
  = Normal tt
      (probe_error "Vector FX: Initialization error" (Error "initializer failed")
         {| entered := [ScrollAnimations; WaitlistForm]; logged := [] |}).
Proof.
  set (f := initializer_eqb WaitlistForm).
  apply (@init_stops_at_first_failure probe probe_error
           (probe_initializer f ScrollAnimations)
           (probe_initializer f WaitlistForm)
           (probe_initializer f SmoothScroll)
           (probe_initializer f NavbarScroll)
           (probe_initializer f CurrentYear)
           (probe_initializer f KeyboardNavigation)
           [probe_initializer f ScrollAnimations]
           [probe_initializer f SmoothScroll; probe_initializer f NavbarScroll;
            probe_initializer f CurrentYear; probe_initializer f KeyboardNavigation]
           (probe_initializer f WaitlistForm)
           probe0
           {| entered := [ScrollAnimations]; logged := [] |}
           {| entered := [ScrollAnimations; WaitlistForm]; logged := [] |}
           (Error "initializer failed"));
    reflexivity.
Defined.

(** Without a failure every initializer runs, in source order. *)
Lemma init_runs_all_in_order :
  probe_init (fun _ => false) probe0
  = Normal tt
      {| entered := [ScrollAnimations; WaitlistForm; SmoothScroll;
                     NavbarScroll; CurrentYear; KeyboardNavigation];
         logged := [] |}.
Proof. reflexivity. Qed.

(** [init] never throws, whatever the initializers do. *)
Lemma init_never_throws
  (W : Type) (console_error : string -> js_error -> W -> W)
  (a1 a2 a3 a4 a5 a6 : M W unit) (w : W) :
  completes (init console_error a1 a2 a3 a4 a5 a6 w) = true.
Proof.
  unfold init, try_catch.
  destruct (sequence (initializers a1 a2 a3 a4 a5 a6) w); reflexivity.
Qed.

(** C3, as stated, fails: a failure of one initializer does keep the
    later ones from running.  When the first one throws, the second is
    never entered. *)
Lemma init_does_not_isolate_failures :
  ~ (forall (failing : initializer -> bool) (i : initializer),
       failing i = true ->
       forall j, In j (entered (final (probe_init failing probe0)))).
Proof.
  intro H.
  specialize (H (initializer_eqb ScrollAnimations) ScrollAnimations eq_refl
                WaitlistForm).
  vm_compute in H. destruct H as [H | []]. discriminate H.
Qed.

End BootstrapFacts.

(* ===================================================================== *)
(** * Scroll reveal: stagger delays and the fallback *)
(* ===================================================================== *)

Module ScrollRevealFacts.
Import ScrollReveal.
Local Open Scope string_scope.
Local Open Scope list_scope.

(** ** The observer callback *)

(** The callbacks a batch schedules, entry by entry. *)
Lemma on_entries_timers entries : forall n p d cb,
  In (d, cb) (timers (on_entries n entries p)) <->
  In (d, cb) (timers p)
  \/ exists i e, nth_error entries i = Some e /\ isIntersecting e = true
                 /\ d = stagger_delay (n + i) /\ cb = AddVisible (target e).
Proof.
  induction entries as [|e entries IH]; intros n p d cb; simpl.
  - split; [auto |]. intros [H | (i & e & H & _)]; [exact H |].
    destruct i; discriminate H.
  - rewrite IH. split.
    + intros [H | (i & e' & Hn & Hi & -> & ->)].
      * destruct (isIntersecting e) eqn:E; [| now left].
        simpl in H. apply in_app_or in H as [H | [H | []]]; [now left |].
        inversion H; subst. right. exists 0, e. rewrite Nat.add_0_r. auto.
      * right. exists (S i), e'. rewrite Nat.add_succ_r. auto.
    + intros [H | (i & e' & Hn & Hi & -> & ->)].
      * left. destruct (isIntersecting e); [| exact H].
        simpl. apply in_or_app. now left.
      * destruct i as [|i]; simpl in Hn.
        -- inversion Hn; subst. left. rewrite Hi. simpl.
           apply in_or_app. right. rewrite Nat.add_0_r. now left.
        -- right. exists i, e'. rewrite Nat.add_succ_r. auto.
Qed.

Lemma update_at_nth f els : forall t el,
  nth_error els t = Some el -> nth_error (update_at t f els) t = Some (f el).
Proof.
  induction els as [|x els IH]; intros [|t] el H; simpl in *; try discriminate.
  - now inversion H.
  - now apply IH.
Qed.

Lemma has_class_add c el : has_class c (classList_add c el) = true.
Proof.
  unfold classList_add, has_class. simpl.
  destruct (existsb (String.eqb c) (classList el)) eqn:E; [exact E |].
  rewrite existsb_app. simpl. now rewrite String.eqb_refl, orb_true_r.
Qed.

Lemma on_entries_count entries : forall n p,
  List.length (timers (on_entries n entries p))
  = List.length (timers p) + List.length (intersecting entries).
Proof.
  unfold intersecting.
  induction entries as [|e entries IH]; intros n p; simpl; [lia |].
  rewrite IH. destruct (isIntersecting e); simpl; [| reflexivity].
  rewrite length_app. simpl. lia.
Qed.

(** C5, as the code has it.  The delay of an intersecting entry is
    [min(i * 100, 500)] ms where [i] is its position in the whole batch,
    entries out of view included: a callback is scheduled by the batch
    exactly when it tags the target of an intersecting entry with that
    delay, one callback per intersecting entry, and running it marks
    the target visible. *)
Theorem stagger_delay_by_batch_position entries p :
  (forall d cb,
     In (d, cb) (timers (observer_callback entries p)) <->
     In (d, cb) (timers p)
     \/ exists i e, nth_error entries i = Some e /\ isIntersecting e = true
                    /\ d = Z.min (Z.of_nat i * 100) 500
                    /\ cb = AddVisible (target e))
  /\ List.length (timers (observer_callback entries p))
     = List.length (timers p) + List.length (intersecting entries)
  /\ (forall q t el,
        nth_error (elements q) t = Some el ->
        exists el', nth_error (elements (run_callback (AddVisible t) q)) t = Some el'
                    /\ has_class "visible" el' = true).
Proof.
  split; [| split].
  - intros d cb. unfold observer_callback. now rewrite on_entries_timers.
  - apply on_entries_count.
  - intros q t el H. exists (classList_add "visible" el). split.
    + simpl. now apply update_at_nth.
    + apply has_class_add.
Qed.

(** C5, as stated, fails: in a batch whose first entry is out of view,
    the first intersecting element (k = 0) is scheduled after 100 ms,
    not after [min(0 * 100, 500) = 0] ms. *)
Lemma stagger_delay_not_by_intersecting_rank :
  ~ (forall entries p k e,
       nth_error (intersecting entries) k = Some e ->
       In (Z.min (Z.of_nat k * 100) 500, AddVisible (target e))
          (timers (observer_callback entries p))).
Proof.
  intro H.
  specialize (H mixed_batch observed_page 0
                {| target := 1; isIntersecting := true |} eq_refl).
  vm_compute in H. destruct H as [H | []]. discriminate H.
Qed.

(** When every entry of the batch intersects, rank and position agree. *)
Lemma stagger_delay_all_intersecting entries p k e :
  forallb isIntersecting entries = true ->
  nth_error entries k = Some e ->
  In (stagger_delay k, AddVisible (target e))
     (timers (observer_callback entries p)).
Proof.
  intros Hall Hk. apply on_entries_timers. right. exists k, e.
  repeat split; auto.
  rewrite forallb_forall in Hall. apply Hall. eapply nth_error_In; eauto.
Qed.

(** ** The fallback without an observer *)

Lemma update_at_app f pre el rest :
  update_at (List.length pre) f (pre ++ el :: rest) = pre ++ f el :: rest.
Proof. induction pre as [|x pre IH]; simpl; [reflexivity | now rewrite IH]. Qed.

Lemma forEach_update_frame f l : forall p,
  hasIntersectionObserver (forEach (update_element f) l p) = hasIntersectionObserver p
  /\ observed (forEach (update_element f) l p) = observed p
  /\ timers (forEach (update_element f) l p) = timers p.
Proof.
  unfold forEach. induction l as [|i l IH]; intro p; simpl; [auto |].
  destruct (IH (update_element f p i)) as (H1 & H2 & H3).
  rewrite H1, H2, H3. auto.
Qed.

(** Updating the selected positions one by one is a map over the
    document. *)
Lemma forEach_update_selected f sel rest : forall pre p,
  elements p = pre ++ rest ->
  elements (forEach (update_element f) (select_from (List.length pre) sel rest) p)
  = pre ++ map (fun el => if sel el then f el else el) rest.
Proof.
  unfold forEach.
  induction rest as [|el rest IH]; intros pre p Hp; simpl; [exact Hp |].
  assert (Hshift : forall x : element,
             pre ++ x :: rest = (pre ++ [x]) ++ rest)
    by (intro; now rewrite <- app_assoc).
  assert (Hlen : forall x : element,
             S (List.length pre) = List.length (pre ++ [x]))
    by (intro; rewrite length_app; simpl; lia).
  destruct (sel el).
  - simpl. rewrite (Hlen (f el)), IH.
    + now rewrite <- app_assoc.
    + simpl. rewrite Hp, update_at_app. apply Hshift.
  - rewrite (Hlen el), IH; [now rewrite <- app_assoc |].
    rewrite Hp. apply Hshift.
Qed.

Lemma fallback_elements p :
  hasIntersectionObserver p = false ->
  elements (initScrollAnimations p)
  = map (fun el => if has_class "animate-on-scroll" el then show_now el else el)
        (elements p).
Proof.
  intro H. unfold initScrollAnimations, querySelectorAll. rewrite H. simpl negb.
  cbv iota. now apply (forEach_update_selected show_now _ (elements p) [] p).
Qed.

(** C9, as the code has it.  Without the observer,
    [initScrollAnimations] shows (opacity 1, no transform) exactly the
    elements that already carry the pending marker class
    [animate-on-scroll]; every other element, the content-section
    elements included, is left untouched, and nothing is observed or
    scheduled. *)
Theorem fallback_shows_marked_elements p i el :
  hasIntersectionObserver p = false ->
  nth_error (elements p) i = Some el ->
  nth_error (elements (initScrollAnimations p)) i
  = Some (if has_class "animate-on-scroll" el then show_now el else el)
  /\ style_opacity (show_now el) = Some "1"
  /\ style_transform (show_now el) = Some "none"
  /\ observed (initScrollAnimations p) = observed p
  /\ timers (initScrollAnimations p) = timers p.
Proof.
  intros H Hi. rewrite (fallback_elements p H). split; [| split; [| split]].
  - now rewrite nth_error_map, Hi.
  - reflexivity.
  - reflexivity.
  - unfold initScrollAnimations. rewrite H. simpl negb. cbv iota.
    destruct (forEach_update_frame show_now
                (querySelectorAll (has_class "animate-on-scroll") p) p)
      as (_ & Ho & Ht).
    now rewrite Ho, Ht.
Qed.

Lemma fallback_shows_marked_elements_witness :
  nth_error (elements (initScrollAnimations old_browser_page)) 1
  = Some (show_now tagged_card)
  /\ nth_error (elements (initScrollAnimations old_browser_page)) 0
     = Some card.
Proof.
  split.
  - apply (@fallback_shows_marked_elements old_browser_page 1 tagged_card);
      reflexivity.
  - reflexivity.
Defined.

(** C9, as stated, fails: a content-section element that the observer
    path would have registered, but which does not carry the marker
    class yet, is not shown by the fallback. *)
Lemma fallback_misses_untagged_section_items :
  ~ (forall p i el,
       hasIntersectionObserver p = false ->
       nth_error (elements p) i = Some el ->
       is_section_item el = true ->
       exists el', nth_error (elements (initScrollAnimations p)) i = Some el'
                   /\ style_opacity el' = Some "1"
                   /\ style_transform el' = Some "none").
Proof.
  intro H.
  destruct (H old_browser_page 0 card eq_refl eq_refl eq_refl)
    as (el' & Hel & Hop & _).
  vm_compute in Hel. inversion Hel; subst. discriminate Hop.
Qed.

(** With the observer, the same element is tagged and registered. *)
Lemma observer_path_registers_section_items :
  let p := initScrollAnimations
             {| hasIntersectionObserver := true;
                elements := elements old_browser_page;
                observed := []; timers := [] |} in
  observed p = [0; 1]
  /\ map (has_class "animate-on-scroll") (elements p) = [true; true].
Proof. split; reflexivity. Qed.

End ScrollRevealFacts.

(* ===================================================================== *)
(** * Confetti *)
(* ===================================================================== *)

Module ConfettiFacts.
Import JsString Effects Waitlist.
Local Open Scope string_scope.
Local Open Scope list_scope.

Lemma make_confetti_eq w :
  make_confetti w = Normal (nth_confetti w 0) (after_confetti 1 w).
Proof. reflexivity. Qed.

Lemma nth_confetti_shift w i :
  nth_confetti (after_confetti 1 w) i = nth_confetti w (S i).
Proof.
  unfold nth_confetti, after_confetti. cbn [env next_id random_calls upd_random_calls upd_next_id].
  replace (i + (1 + next_id w)) with (S i + next_id w) by lia.
  repeat match goal with
         | |- context [random (env w) (6 * i + ?k + (6 * 1 + random_calls w))] =>
             replace (6 * i + k + (6 * 1 + random_calls w))
               with (6 * S i + k + random_calls w) by lia
         end.
  reflexivity.
Qed.

Lemma after_confetti_succ n w :
  after_confetti n (after_confetti 1 w) = after_confetti (S n) w.
Proof.
  unfold after_confetti, upd_random_calls, upd_next_id. cbn -[Nat.mul Nat.add].
  f_equal; lia.
Qed.

(** The loop, in closed form. *)
Lemma confetti_loop_eq n : forall fragment w,
  confetti_loop n fragment w
  = Normal (fragment ++ map (nth_confetti w) (seq 0 n)) (after_confetti n w).
Proof.
  induction n as [|n IH]; intros fragment w.
  - cbn [confetti_loop seq map]. rewrite app_nil_r.
    unfold ret, after_confetti. now destruct w.
  - cbn [confetti_loop]. unfold bind. rewrite make_confetti_eq, IH.
    rewrite after_confetti_succ. f_equal.
    rewrite <- app_assoc. f_equal. cbn [seq map app]. f_equal.
    rewrite <- seq_shift, map_map. apply map_ext. intro i.
    apply nth_confetti_shift.
Qed.

Lemma createConfetti_eq w :
  createConfetti w
  = Normal tt
      (upd_timers (fun l => l ++ [(4000%Z, ConfettiCleanup)])
         (upd_body (fun b => b ++ confetti_fragment w)
            (after_confetti confettiCount w))).
Proof.
  unfold createConfetti, bind. rewrite confetti_loop_eq. reflexivity.
Qed.

End ConfettiFacts.

(* ===================================================================== *)
(** * The waitlist form *)
(* ===================================================================== *)

Module WaitlistFacts.
Import JsString Email Effects Waitlist JsStringFacts EmailFacts ConfettiFacts.
Local Open Scope string_scope.
Local Open Scope list_scope.

Arguments isValidEmail : simpl never.
Arguments trim : simpl never.
Arguments split : simpl never.
Arguments createConfetti : simpl never.
Arguments confetti_fragment : simpl never.
Arguments confettiCount : simpl never.

Ltac run_handler :=
  unfold handleFormSubmit, shakeElement, announceToScreenReader, set_button,
    prefersReducedMotion, fetch, createElement, setTimeout, push,
    set, deref, when, try_catch, bind, gets, modify, ret, throw.

Lemma invalid_guard email :
  email = [] \/ isValidEmail email = false ->
  is_empty email || negb (isValidEmail email) = true.
Proof.
  intros [-> | H]; [reflexivity |].
  rewrite H. apply orb_true_r.
Qed.

Lemma valid_guard email :
  isValidEmail email = true ->
  is_empty email || negb (isValidEmail email) = false.
Proof.
  intro H. rewrite H. destruct email; [| reflexivity].
  rewrite empty_not_valid in H. discriminate H.
Qed.

(** C2.  When the trimmed value of the email field is empty or rejected
    by the validator, the handler issues no network request, shakes the
    field (shake animation, red border, aria-invalid, with the reset
    queued at 500 ms), focuses it and announces the problem, and
    returns with the button, the form and the success panel as they
    were. *)
Theorem invalid_submit_stays_idle w input :
  email_input w = Some input ->
  trim (value input) = [] \/ isValidEmail (trim (value input)) = false ->
  exists w',
    handleFormSubmit w = Normal tt w'
    /\ requests w' = requests w
    /\ email_input w'
       = Some {| value := value input;
                 style_animation := "shake 0.5s ease";
                 style_borderColor := "#ef4444";
                 aria_invalid := Some "true" |}
    /\ In (500%Z, ShakeReset) (timers w')
    /\ In (status_div (next_id w) "Please enter a valid email address")
          (body w')
    /\ In (1000%Z, RemoveNode (next_id w)) (timers w')
    /\ focused w' = true
    /\ submit_btn w' = submit_btn w
    /\ form_display w' = form_display w
    /\ success_classes w' = success_classes w
    /\ submit_listeners w' = submit_listeners w
    /\ default_prevented w' = true.
Proof.
  intros Hin Hbad. apply invalid_guard in Hbad.
  eexists. split.
  - run_handler. cbn. rewrite Hin. cbn. rewrite Hbad. reflexivity.
  - cbn. rewrite Hin. repeat split; try reflexivity; rewrite !in_app_iff; cbn; auto.
Qed.

Lemma invalid_submit_stays_idle_witness :
  let w := sample_world false (Response true) (lit "not-an-email") in
  isValidEmail (trim (lit "not-an-email")) = false
  /\ exists w', handleFormSubmit w = Normal tt w'
                /\ requests w' = []
                /\ email_input w'
                   = Some {| value := lit "not-an-email";
                             style_animation := "shake 0.5s ease";
                             style_borderColor := "#ef4444";
                             aria_invalid := Some "true" |}
                /\ submit_btn w' = submit_btn w.
Proof.
  split; [vm_compute; reflexivity |].
  destruct (@invalid_submit_stays_idle
              (sample_world false (Response true) (lit "not-an-email"))
              {| value := lit "not-an-email"; style_animation := "";
                 style_borderColor := ""; aria_invalid := None |}
              eq_refl (or_intror eq_refl))
    as (w' & Hrun & Hreq & Hfield & _ & _ & _ & _ & Hbtn & _).
  exists w'. auto.
Defined.

(** C4.  When the submission fails, by a network error or a response
    that is not ok, the handler logs the error, re-enables the button,
    marks it not busy, restores its label and announces the error; the
    form stays visible with its handler attached, and exactly one
    request was sent. *)
Theorem failed_submit_reenables w input button :
  email_input w = Some input ->
  submit_btn w = Some button ->
  isValidEmail (trim (value input)) = true ->
  (exists e, respond (env w) (submission w input) = NetworkFailure e)
  \/ respond (env w) (submission w input) = Response false ->
  exists w' error,
    handleFormSubmit w = Normal tt w'
    /\ submit_btn w' = Some (reenabled button)
    /\ In (status_div (next_id w) "There was an error. Please try again.")
          (body w')
    /\ console w' = console w ++ [ConsoleError "Form submission error:" error]
    /\ requests w' = requests w ++ [submission w input]
    /\ form_display w' = form_display w
    /\ success_classes w' = success_classes w
    /\ submit_listeners w' = submit_listeners w
    /\ gtag_calls w' = gtag_calls w.
Proof.
  intros Hin Hbtn Hok Hnet. apply valid_guard in Hok.
  assert (Hrun : forall r error,
             respond (env w) (submission w input) = r ->
             (r = NetworkFailure error
              \/ (r = Response false /\ error = Error "Form submission failed")) ->
             exists w', handleFormSubmit w = Normal tt w'
               /\ submit_btn w' = Some (reenabled button)
               /\ In (status_div (next_id w) "There was an error. Please try again.")
                     (body w')
               /\ console w' = console w ++ [ConsoleError "Form submission error:" error]
               /\ requests w' = requests w ++ [submission w input]
               /\ form_display w' = form_display w
               /\ success_classes w' = success_classes w
               /\ submit_listeners w' = submit_listeners w
               /\ gtag_calls w' = gtag_calls w).
  { intros r error Hr Hcase. unfold submission in Hr. eexists. split.
    - run_handler. cbn. rewrite Hin. cbn. rewrite Hok, Hbtn. cbn. rewrite Hr.
      destruct Hcase as [-> | [-> ->]]; reflexivity.
    - cbn. rewrite Hbtn. repeat split; try reflexivity.
      rewrite in_app_iff; cbn; auto. }
  destruct Hnet as [[e He] | Hfalse].
  - destruct (Hrun _ e He) as (w' & H); [now left |]. now exists w', e.
  - destruct (Hrun _ (Error "Form submission failed") Hfalse) as (w' & H);
      [now right |].
    now exists w', (Error "Form submission failed").
Qed.

Lemma failed_submit_reenables_witness :
  let w := sample_world false (NetworkFailure (TypeError "Failed to fetch"))
                        (lit "a@b.co") in
  isValidEmail (trim (lit "a@b.co")) = true
  /\ exists w', handleFormSubmit w = Normal tt w'
                /\ submit_btn w'
                   = Some {| innerHTML := "Join the waitlist"; disabled := false;
                             aria_busy := Some "false" |}
                /\ List.length (requests w') = 1.
Proof.
  split; [vm_compute; reflexivity |].
  destruct (@failed_submit_reenables
              (sample_world false (NetworkFailure (TypeError "Failed to fetch"))
                            (lit "a@b.co"))
              {| value := lit "a@b.co"; style_animation := "";
                 style_borderColor := ""; aria_invalid := None |}
              {| innerHTML := "Join the waitlist"; disabled := false;
                 aria_busy := None |}
              eq_refl eq_refl eq_refl
              (or_introl (ex_intro _ (TypeError "Failed to fetch") eq_refl)))
    as (w' & error & Hrun & Hbtn & _ & _ & Hreq & _).
  exists w'. rewrite Hreq. auto.
Defined.

Arguments trackEvent : simpl never.

Lemma trackEvent_eq data w :
  trackEvent "waitlist_signup" data w
  = Normal tt (upd_console (fun l => l ++ tracked_log w data)
                 (upd_gtag_calls (fun l => l ++ tracked_gtag w data) w)).
Proof.
  unfold trackEvent, tracked_gtag, tracked_log, when, push, bind, gets, modify, ret.
  cbn. destruct (gtag_is_function (env w)); cbn; destruct (_ || _); cbn;
    destruct w; unfold upd_console, upd_gtag_calls; cbn;
    now rewrite ?app_nil_r.
Qed.

Lemma fragment_length w : List.length (confetti_fragment w) = confettiCount.
Proof. unfold confetti_fragment. now rewrite length_map, length_seq. Qed.

Lemma fragment_all_confetti w :
  filter is_confetti (confetti_fragment w) = confetti_fragment w.
Proof.
  unfold confetti_fragment. induction (seq 0 confettiCount) as [|i l IH];
    [reflexivity |]. cbn [map filter nth_confetti confetti_div is_confetti].
  now rewrite IH.
Qed.

(** The successful path, field by field. *)
Lemma successful_submit w input button :
  email_input w = Some input ->
  submit_btn w = Some button ->
  isValidEmail (trim (value input)) = true ->
  respond (env w) (submission w input) = Response true ->
  let data := {| email_domain := index (split at_sign (trim (value input))) 1 |} in
  exists w',
    handleFormSubmit w = Normal tt w'
    /\ env w' = env w
    /\ gtag_calls w' = gtag_calls w ++ tracked_gtag w data
    /\ console w' = console w ++ tracked_log w data
    /\ form_display w' = "none"
    /\ success_classes w' = classList_add "show" (success_classes w)
    /\ requests w' = requests w ++ [submission w input]
    /\ confetti_count w'
       = confetti_count w
         + (if reduced_motion (env w) then 0 else confettiCount).
Proof.
  intros Hin Hbtn Hok Hnet data. apply valid_guard in Hok.
  unfold submission in Hnet.
  destruct (reduced_motion (env w)) eqn:Hreduce.
  - eexists. split.
    + run_handler. cbn. rewrite Hin. cbn. rewrite Hok, Hbtn. cbn.
      rewrite Hnet. cbn. rewrite Hreduce. cbn. rewrite trackEvent_eq. reflexivity.
    + unfold confetti_count. cbn. repeat split.
      rewrite filter_app. cbn. rewrite app_nil_r. lia.
  - eexists. split.
    + run_handler. cbn. rewrite Hin. cbn. rewrite Hok, Hbtn. cbn.
      rewrite Hnet. cbn. rewrite Hreduce. cbn.
      rewrite createConfetti_eq, trackEvent_eq. reflexivity.
    + unfold confetti_count. cbn. repeat split.
      rewrite !filter_app, fragment_all_confetti, !length_app, fragment_length.
      cbn. lia.
Qed.

(** C7.  On a successful submission the analytics event carries the
    domain only: the validated address is [l ++ "@" ++ d] with a
    non-empty local part [l] and no other [@], and the data handed to
    [gtag] and to the console is [d], never the whole address. *)
Theorem analytics_carries_domain_only w input button :
  email_input w = Some input ->
  submit_btn w = Some button ->
  isValidEmail (trim (value input)) = true ->
  respond (env w) (submission w input) = Response true ->
  exists l d w',
    trim (value input) = l ++ at_sign :: d
    /\ l <> [] /\ ~ In at_sign l /\ ~ In at_sign d
    /\ d <> trim (value input)
    /\ handleFormSubmit w = Normal tt w'
    /\ gtag_calls w' = gtag_calls w ++ tracked_gtag w {| email_domain := Some d |}
    /\ console w' = console w ++ tracked_log w {| email_domain := Some d |}.
Proof.
  intros Hin Hbtn Hok Hnet.
  destruct (valid_email_shape _ Hok) as (l & d & E & Hl & Hd).
  pose proof (local_part_no_at l Hl) as Hl_at.
  pose proof (domain_no_at d Hd) as Hd_at.
  apply is_local_part_iff in Hl as [Hne _].
  destruct (successful_submit w Hin Hbtn Hok Hnet)
    as (w' & Hrun & _ & Hgtag & Hlog & _).
  assert (Hdata : index (split at_sign (trim (value input))) 1 = Some d).
  { rewrite E, split_app by exact Hl_at. now rewrite split_no_sep. }
  rewrite Hdata in Hgtag, Hlog.
  exists l, d, w'. repeat split; auto.
  intro Heq. apply (f_equal (@List.length _)) in E.
  rewrite <- Heq, length_app in E. simpl in E.
  destruct l; [congruence | simpl in E; lia].
Qed.

Lemma analytics_carries_domain_only_witness :
  let w := sample_world false (Response true) (lit " a@b.co ") in
  isValidEmail (trim (lit " a@b.co ")) = true
  /\ exists d w', handleFormSubmit w = Normal tt w'
                  /\ gtag_calls w' = [("waitlist_signup", {| email_domain := Some d |})]
                  /\ ~ In at_sign d.
Proof.
  split; [vm_compute; reflexivity |].
  destruct (@analytics_carries_domain_only
              (sample_world false (Response true) (lit " a@b.co "))
              {| value := lit " a@b.co "; style_animation := "";
                 style_borderColor := ""; aria_invalid := None |}
              {| innerHTML := "Join the waitlist"; disabled := false;
                 aria_busy := None |}
              eq_refl eq_refl eq_refl eq_refl)
    as (l & d & w' & _ & _ & _ & Hd & _ & Hrun & Hgtag & _).
  exists d, w'. auto.
Defined.

(** ** Confetti and reduced motion *)

Lemma handler_frame w :
  env (final (handleFormSubmit w)) = env w
  /\ (reduced_motion (env w) = true ->
      filter is_confetti (body (final (handleFormSubmit w)))
      = filter is_confetti (body w)).
Proof.
  run_handler. cbn.
  destruct (email_input w) as [input |]; cbn; [| auto].
  destruct (is_empty _ || negb _); cbn.
  - split; [reflexivity |]. intros _. rewrite filter_app. apply app_nil_r.
  - destruct (submit_btn w) as [button |]; cbn; [| auto].
    destruct (respond (env w) _) as [[|] | e]; cbn.
    + destruct (reduced_motion (env w)) eqn:Hr; cbn.
      * rewrite trackEvent_eq. cbn. split; [reflexivity |]. intros _.
        rewrite filter_app. apply app_nil_r.
      * rewrite createConfetti_eq. cbn. rewrite trackEvent_eq. cbn.
        split; [reflexivity | discriminate].
    + split; [reflexivity |]. intros _. rewrite filter_app. apply app_nil_r.
    + split; [reflexivity |]. intros _. rewrite filter_app. apply app_nil_r.
Qed.

Lemma handlers_frame n : forall w,
  env (Nat.iter n (fun x => final (handleFormSubmit x)) w) = env w
  /\ (reduced_motion (env w) = true ->
      filter is_confetti
        (body (Nat.iter n (fun x => final (handleFormSubmit x)) w))
      = filter is_confetti (body w)).
Proof.
  induction n as [|n IH]; intro w; [cbn; auto |].
  change (Nat.iter (S n) (fun x => final (handleFormSubmit x)) w)
    with (final (handleFormSubmit
                   (Nat.iter n (fun x => final (handleFormSubmit x)) w))).
  destruct (IH w) as [He Hb].
  destruct (handler_frame (Nat.iter n (fun x => final (handleFormSubmit x)) w))
    as [He' Hb'].
  split; [congruence |].
  intro Hr. rewrite Hb' by congruence. auto.
Qed.

Lemma filter_filter_incl {A} (f g : A -> bool) l :
  incl (filter f (filter g l)) (filter f l).
Proof. intros x. rewrite !filter_In. tauto. Qed.

Lemma step_frame ev w :
  env (step ev w) = env w
  /\ (reduced_motion (env w) = true ->
      incl (filter is_confetti (body (step ev w)))
           (filter is_confetti (body w))).
Proof.
  destruct ev as [v | | k]; cbn [step].
  - split; [reflexivity |]. intros _. apply incl_refl.
  - destruct (handlers_frame (submit_listeners w)
                (upd_default_prevented (fun _ => false) w)) as [He Hb].
    split; [exact He |]. intro Hr. rewrite (Hb Hr). apply incl_refl.
  - destruct (nth_error (timers w) k) as [[d [| id |]] |];
      (split; [reflexivity |]); intros _; cbn;
      auto using incl_refl, filter_filter_incl.
Qed.

Lemma run_frame evs : forall w,
  env (run evs w) = env w
  /\ (reduced_motion (env w) = true ->
      incl (filter is_confetti (body (run evs w)))
           (filter is_confetti (body w))).
Proof.
  unfold run. induction evs as [|ev evs IH]; intro w; cbn [fold_left].
  - split; [reflexivity |]. intros _. apply incl_refl.
  - destruct (step_frame ev w) as [He Hb]. destruct (IH (step ev w)) as [He' Hb'].
    split; [congruence |]. intro Hr.
    eapply incl_tran; [apply Hb'; congruence | now apply Hb].
Qed.

(** C6.  With reduced motion requested, a submission adds no confetti
    to the page, and no sequence of edits, submissions and timers ever
    does: every confetti piece on the page after the run was there
    before it. *)
Theorem no_confetti_under_reduced_motion w :
  reduced_motion (env w) = true ->
  filter is_confetti (body (final (handleFormSubmit w)))
  = filter is_confetti (body w)
  /\ (forall evs, incl (filter is_confetti (body (run evs w)))
                       (filter is_confetti (body w)))
  /\ (confetti_count w = 0 -> forall evs, confetti_count (run evs w) = 0).
Proof.
  intro Hr. split; [now apply handler_frame |].
  split; [intro evs; now apply run_frame |].
  unfold confetti_count. intros H0 evs.
  destruct (run_frame evs w) as [_ Hincl]. specialize (Hincl Hr).
  destruct (filter is_confetti (body w)); [| discriminate H0].
  destruct (filter is_confetti (body (run evs w))) as [|n l]; [reflexivity |].
  destruct (Hincl n). now left.
Qed.

Lemma no_confetti_under_reduced_motion_witness :
  reduced_motion (env (sample_world true (Response true) (lit "a@b.co"))) = true
  /\ confetti_count
       (run [SubmitEvent; TimerFires 0; UserTypes (lit "c@d.org"); SubmitEvent]
            (sample_world true (Response true) (lit "a@b.co")))
     = 0.
Proof.
  split; [reflexivity |].
  exact (proj2 (proj2 (@no_confetti_under_reduced_motion
                         (sample_world true (Response true) (lit "a@b.co"))
                         eq_refl))
               eq_refl
               [SubmitEvent; TimerFires 0; UserTypes (lit "c@d.org"); SubmitEvent]).
Defined.

(** Without the preference, the same submission does spawn confetti. *)
Lemma confetti_without_reduced_motion :
  confetti_count (run [SubmitEvent]
                      (sample_world false (Response true) (lit " a@b.co ")))
  = 50.
Proof. vm_compute. reflexivity. Qed.

(** ** The confetti burst *)

Lemma nth_confetti_decorative w i :
  (forall k, (0 <= random (env w) k /\ random (env w) k < 1)%Q) ->
  decorative (nth_confetti w i).
Proof.
  intro H. unfold nth_confetti, confetti_div, decorative.
  cbn [css_pointer_events css_width css_height css_animation_duration css_opacity].
  pose proof (H (6 * i + 0 + random_calls w)) as H0.
  pose proof (H (6 * i + 1 + random_calls w)) as H1.
  pose proof (H (6 * i + 4 + random_calls w)) as H4.
  repeat split; lra.
Qed.

Lemma nth_confetti_styled w i :
  style_includes "confettiFall" (nth_confetti w i) = true.
Proof.
  unfold nth_confetti, confetti_div, style_includes.
  apply existsb_exists. exists "confettiFall". split; [| reflexivity].
  cbn. auto 10.
Qed.

(** C8.  One call of [createConfetti] appends exactly 50 nodes to the
    page, each hidden from assistive technology, not interactive, with
    size in 5..15 px, duration in 2..4 s and opacity in 0.3..1.0, and
    schedules at 4000 ms a cleanup after which none of them is in the
    document. *)
Theorem createConfetti_spawns_fifty w :
  (forall k, (0 <= random (env w) k /\ random (env w) k < 1)%Q) ->
  exists fragment w',
    createConfetti w = Normal tt w'
    /\ body w' = body w ++ fragment
    /\ List.length fragment = 50
    /\ Forall decorative fragment
    /\ timers w' = timers w ++ [(4000%Z, ConfettiCleanup)]
    /\ (forall q n, In n fragment ->
                    ~ In n (body (run_callback ConfettiCleanup q))).
Proof.
  intro H. exists (confetti_fragment w). eexists.
  split; [apply createConfetti_eq |]. cbn.
  split; [reflexivity |]. split; [apply fragment_length |].
  split; [| split; [reflexivity |]].
  - apply Forall_forall. intros n Hn. unfold confetti_fragment in Hn.
    apply in_map_iff in Hn as (i & <- & _). now apply nth_confetti_decorative.
  - intros q n Hn Hin. unfold confetti_fragment in Hn.
    apply in_map_iff in Hn as (i & <- & _).
    cbn in Hin. apply filter_In in Hin as [_ Hin].
    now rewrite nth_confetti_styled in Hin.
Qed.

Lemma sample_random_in_unit k :
  (0 <= sample_random k /\ sample_random k < 1)%Q.
Proof.
  unfold sample_random. destruct (Nat.even k); split; lra.
Defined.

Lemma createConfetti_spawns_fifty_witness :
  exists fragment w',
    createConfetti (sample_world false (Response true) []) = Normal tt w'
    /\ body w' = fragment
    /\ List.length fragment = 50
    /\ timers w' = [(4000%Z, ConfettiCleanup)].
Proof.
  destruct (@createConfetti_spawns_fifty
              (sample_world false (Response true) []) sample_random_in_unit)
    as (fragment & w' & Hrun & Hbody & Hlen & _ & Htimers & _).
  exists fragment, w'. auto.
Defined.

(** C10.  When the form or the success panel is missing,
    [initWaitlistForm] returns without an error and leaves the page as
    it was: no handler is attached, so a later submit event runs no
    handler and is not intercepted. *)
Theorem initWaitlistForm_needs_both_elements w :
  form_present w = false \/ success_present w = false ->
  initWaitlistForm w = Normal tt w
  /\ (submit_listeners w = 0 ->
      let w' := step SubmitEvent (final (initWaitlistForm w)) in
      default_prevented w' = false /\ requests w' = requests w
      /\ email_input w' = email_input w /\ body w' = body w
      /\ timers w' = timers w).
Proof.
  intro H.
  assert (E : initWaitlistForm w = Normal tt w).
  { unfold initWaitlistForm, bind, gets, ret.
    destruct H as [-> | ->]; [reflexivity |].
    now destruct (form_present w). }
  split; [exact E |]. intro H0. rewrite E. cbn [final step]. rewrite H0.
  cbn. auto.
Qed.

Lemma initWaitlistForm_needs_both_elements_witness :
  success_present no_panel_world = false
  /\ initWaitlistForm no_panel_world = Normal tt no_panel_world.
Proof.
  split; [reflexivity |].
  exact (proj1 (@initWaitlistForm_needs_both_elements no_panel_world
                  (or_intror eq_refl))).
Defined.

(** With both elements present the handler is attached. *)
Lemma initWaitlistForm_attaches w :
  form_present w = true -> success_present w = true ->
  initWaitlistForm w = Normal tt (upd_submit_listeners S w).
Proof.
  intros Hf Hs. unfold initWaitlistForm, bind, gets, modify. now rewrite Hf, Hs.
Qed.

End WaitlistFacts.

(* ===================================================================== *)
(** * More on valid addresses *)
(* ===================================================================== *)

Module EmailExtras.
Import JsString Regex Email RegexFacts JsStringFacts EmailFacts.
Local Open Scope list_scope.

Lemma empty_not_label : is_label [] = false.
Proof. reflexivity. Qed.

Lemma domain_not_empty d : is_domain d = true -> d <> [].
Proof. intros H ->. discriminate H. Qed.

(** X1.  A valid address holds exactly one [@] and is between 3 and 254
    units long. *)
Theorem valid_has_one_at s :
  isValidEmail s = true ->
  count_occ N.eq_dec s at_sign = 1 /\ 3 <= List.length s <= 254.
Proof.
  intro H. pose proof (valid_email_shape s H) as (l & d & -> & Hl & Hd).
  unfold isValidEmail in H. apply andb_true_iff in H as [_ Hlen].
  apply Nat.leb_le in Hlen.
  pose proof (local_part_no_at l Hl) as Hl_at.
  pose proof (domain_no_at d Hd) as Hd_at.
  apply is_local_part_iff in Hl as [Hne _].
  apply domain_not_empty in Hd.
  split.
  - rewrite count_occ_app. cbn [count_occ].
    destruct (N.eq_dec at_sign at_sign) as [_ | Hn]; [| congruence].
    apply (count_occ_not_In N.eq_dec) in Hl_at, Hd_at.
    unfold char16, at_sign in *. rewrite Hl_at, Hd_at. reflexivity.
  - unfold char16 in *. rewrite length_app in *. cbn [List.length] in *.
    destruct l; [congruence |]. destruct d; [congruence |]. simpl in *. lia.
Qed.

Lemma valid_has_one_at_witness :
  isValidEmail (lit "a@b.co") = true
  /\ count_occ N.eq_dec (lit "a@b.co") at_sign = 1.
Proof.
  split; [vm_compute; reflexivity |].
  exact (proj1 (@valid_has_one_at (lit "a@b.co") eq_refl)).
Defined.

(** ** No white space in a valid address *)

Lemma printable_not_space c : (33 <= c <= 126)%N -> is_js_space c = false.
Proof.
  intro H. unfold is_js_space, in_range.
  repeat match goal with
         | |- context [(?a =? ?b)%N] =>
             destruct (N.eqb_spec a b); [lia |]
         | |- context [(?a <=? ?b)%N] =>
             destruct (N.leb_spec a b); try lia
         end; reflexivity.
Qed.

Lemma local_class_printable c :
  class_has local_class c = true -> (33 <= c <= 126)%N.
Proof.
  let cs := eval vm_compute in local_class in change local_class with cs.
  unfold class_has. cbn [existsb item_has]. unfold in_range.
  rewrite !orb_true_iff, !andb_true_iff, !N.leb_le, !N.eqb_eq. lia.
Qed.

Lemma label_char_printable c : label_char c = true -> (33 <= c <= 126)%N.
Proof.
  unfold label_char, is_alnum, in_range.
  let a := eval vm_compute in (code "a") in change (code "a") with a.
  let a := eval vm_compute in (code "z") in change (code "z") with a.
  let a := eval vm_compute in (code "A") in change (code "A") with a.
  let a := eval vm_compute in (code "Z") in change (code "Z") with a.
  let a := eval vm_compute in (code "0") in change (code "0") with a.
  let a := eval vm_compute in (code "9") in change (code "9") with a.
  let a := eval vm_compute in hyphen in change hyphen with a.
  rewrite !orb_true_iff, !andb_true_iff, !N.leb_le, !N.eqb_eq. lia.
Qed.

Lemma domain_printable d :
  is_domain d = true -> Forall (fun c => (33 <= c <= 126)%N) d.
Proof.
  unfold is_domain. intro H. rewrite <- (join_split dot d).
  rewrite forallb_forall in H.
  induction (split dot d) as [|l ls IH]; [constructor |].
  assert (Hl : Forall (fun c => (33 <= c <= 126)%N) l).
  { apply Forall_forall. intros c Hc. apply label_char_printable.
    assert (E : is_label l = true) by (apply H; now left).
    apply is_label_iff in E as (_ & E & _).
    rewrite forallb_forall in E. now apply E. }
  destruct ls as [|k ls]; [exact Hl |].
  rewrite join_cons by discriminate. apply Forall_app. split; [exact Hl |].
  constructor; [vm_compute; split; discriminate |].
  apply IH. intros x Hx. apply H. now right.
Qed.

Lemma valid_printable s :
  isValidEmail s = true -> Forall (fun c => is_js_space c = false) s.
Proof.
  intro H. pose proof (valid_email_shape s H) as (l & d & -> & Hl & Hd).
  apply is_local_part_iff in Hl as [_ Hl]. rewrite forallb_forall in Hl.
  apply Forall_app. split.
  - apply Forall_forall. intros c Hc.
    now apply printable_not_space, local_class_printable, Hl.
  - constructor; [reflexivity |].
    eapply Forall_impl; [| apply (domain_printable d Hd)].
    intros c Hc. now apply printable_not_space.
Qed.

Lemma trim_start_id s :
  Forall (fun c => is_js_space c = false) s -> trim_start s = s.
Proof. intros [|c t Hc _]; simpl; [reflexivity | now rewrite Hc]. Qed.

(** X2.  Trimming does not change a valid address: the validator
    admits no white space. *)
Theorem valid_is_trimmed s : isValidEmail s = true -> trim s = s.
Proof.
  intro H. apply valid_printable in H. unfold trim, trim_end.
  rewrite (trim_start_id H), trim_start_id.
  - apply rev_involutive.
  - now apply Forall_rev.
Qed.

Lemma valid_is_trimmed_witness :
  isValidEmail (lit "first.last+tag@sub.example.org") = true
  /\ trim (lit "first.last+tag@sub.example.org")
     = lit "first.last+tag@sub.example.org".
Proof.
  split; [vm_compute; reflexivity |].
  exact (@valid_is_trimmed (lit "first.last+tag@sub.example.org") eq_refl).
Defined.

(** ** The ends of the domain *)






End EmailExtras.

(* ===================================================================== *)
(** * More on the submit handler *)
(* ===================================================================== *)

Module HandlerExtras.
Import JsString Email Effects Waitlist PageInvariants.
Import JsStringFacts EmailFacts ConfettiFacts WaitlistFacts.
Local Open Scope string_scope.
Local Open Scope list_scope.

Arguments isValidEmail : simpl never.
Arguments trim : simpl never.
Arguments split : simpl never.
Arguments createConfetti : simpl never.
Arguments confetti_fragment : simpl never.
Arguments confettiCount : simpl never.
Arguments trackEvent : simpl never.

(** X4.  When the form has no email field, or the address is valid but
    the form has no submit button, the handler throws a [TypeError]
    after [preventDefault] and does nothing else: no request, no
    feedback. *)
Theorem missing_element_throws w :
  email_input w = None
  \/ (exists input, email_input w = Some input
                    /\ isValidEmail (trim (value input)) = true
                    /\ submit_btn w = None) ->
  handleFormSubmit w
  = Thrown null_error (upd_default_prevented (fun _ => true) w).
Proof.
  intros [Hin | (input & Hin & Hok & Hbtn)].
  - run_handler. cbn. rewrite Hin. reflexivity.
  - apply valid_guard in Hok.
    run_handler. cbn. rewrite Hin. cbn. rewrite Hok, Hbtn. reflexivity.
Qed.

Lemma missing_element_throws_witness :
  let w := strip false true (sample_world false (Response true) (lit "a@b.co")) in
  handleFormSubmit w
  = Thrown null_error (upd_default_prevented (fun _ => true) w)
  /\ requests (final (handleFormSubmit w)) = [].
Proof.
  assert (H : handleFormSubmit
                (strip false true (sample_world false (Response true) (lit "a@b.co")))
              = Thrown null_error
                  (upd_default_prevented (fun _ => true)
                     (strip false true
                        (sample_world false (Response true) (lit "a@b.co"))))).
  { apply missing_element_throws. right.
    exists (sample_input (lit "a@b.co")). repeat split. }
  split; [exact H |]. cbv zeta. rewrite H. reflexivity.
Defined.

(** X5.  With the email field present, and the submit button present
    or the address invalid, the handler never throws: a network
    failure or a bad response ends in its [catch] block. *)
Theorem handler_never_throws w input :
  email_input w = Some input ->
  isValidEmail (trim (value input)) = false \/ submit_btn w <> None ->
  completes (handleFormSubmit w) = true.
Proof.
  intros Hin Hcase. run_handler. cbn. rewrite Hin. cbn.
  destruct (is_empty (trim (value input))
            || negb (isValidEmail (trim (value input)))) eqn:Hguard; cbn;
    [reflexivity |].
  destruct (submit_btn w) as [button |]; cbn.
  - destruct (respond (env w) _) as [[|] | e]; cbn; try reflexivity.
    destruct (reduced_motion (env w)); cbn.
    + now rewrite trackEvent_eq.
    + now rewrite createConfetti_eq, trackEvent_eq.
  - destruct Hcase as [Hbad | Hbtn]; [| congruence].
    rewrite Hbad in Hguard. now rewrite orb_true_r in Hguard.
Qed.

Lemma handler_never_throws_witness :
  completes (handleFormSubmit
               (sample_world false (NetworkFailure (TypeError "Failed to fetch"))
                             (lit "a@b.co")))
  = true.
Proof.
  apply (@handler_never_throws
           (sample_world false (NetworkFailure (TypeError "Failed to fetch"))
                         (lit "a@b.co"))
           (sample_input (lit "a@b.co")) eq_refl).
  right. discriminate.
Defined.

(** X6.  One submit event sends at most one request, and only for an
    address that passed the validator. *)
Theorem requests_only_for_valid w :
  requests (final (handleFormSubmit w)) = requests w
  \/ exists input,
       email_input w = Some input
       /\ isValidEmail (trim (value input)) = true
       /\ requests (final (handleFormSubmit w))
          = requests w ++ [submission w input].
Proof.
  run_handler. cbn.
  destruct (email_input w) as [input |] eqn:Hin; cbn; [| now left].
  destruct (is_empty (trim (value input))
            || negb (isValidEmail (trim (value input)))) eqn:Hguard; cbn;
    [now left |].
  apply orb_false_iff in Hguard as [_ Hok]. apply negb_false_iff in Hok.
  destruct (submit_btn w) as [button |]; cbn; [| now left].
  right. exists input. split; [reflexivity |]. split; [exact Hok |].
  unfold submission.
  destruct (respond (env w) _) as [[|] | e]; cbn; try reflexivity.
  destruct (reduced_motion (env w)); cbn.
  - now rewrite trackEvent_eq.
  - now rewrite createConfetti_eq, trackEvent_eq.
Qed.

Lemma classList_add_in c l : In c (classList_add c l).
Proof.
  unfold classList_add. destruct (existsb (String.eqb c) l) eqn:E.
  - apply existsb_exists in E as (x & Hx & Ex).
    apply String.eqb_eq in Ex. now subst.
  - apply in_or_app. right. now left.
Qed.

(** X7.  After a successful submission the form is hidden, the success
    panel carries [show], the success is announced for one second, no
    error is logged, and the button is left disabled and busy with its
    loading label. *)
Theorem successful_submit_shows_panel w input button :
  email_input w = Some input ->
  submit_btn w = Some button ->
  isValidEmail (trim (value input)) = true ->
  respond (env w) (submission w input) = Response true ->
  exists w',
    handleFormSubmit w = Normal tt w'
    /\ form_display w' = "none"
    /\ In "show" (success_classes w')
    /\ In (status_div (next_id w)
             "Success! You're on the waitlist. We'll be in touch soon.")
          (body w')
    /\ In (1000%Z, RemoveNode (next_id w)) (timers w')
    /\ submit_btn w' = Some joining
    /\ email_input w' = Some input
    /\ (forall m e, In (ConsoleError m e) (console w') ->
                    In (ConsoleError m e) (console w)).
Proof.
  intros Hin Hbtn Hok Hnet. apply valid_guard in Hok.
  unfold submission in Hnet.
  assert (Hlog : forall m e data,
             In (ConsoleError m e) (console w ++ tracked_log w data) ->
             In (ConsoleError m e) (console w)).
  { intros m e data H. apply in_app_or in H as [H | H]; [exact H |].
    unfold tracked_log in H.
    destruct (String.eqb (hostname (env w)) "localhost"
              || String.eqb (hostname (env w)) "127.0.0.1"); [| destruct H].
    destruct H as [H | []]. discriminate H. }
  destruct (reduced_motion (env w)) eqn:Hreduce.
  - eexists. split.
    + run_handler. cbn. rewrite Hin. cbn. rewrite Hok, Hbtn. cbn.
      rewrite Hnet. cbn. rewrite Hreduce. cbn. rewrite trackEvent_eq. reflexivity.
    + cbn. rewrite Hbtn, Hin. repeat split;
        auto using classList_add_in; try (rewrite !in_app_iff; cbn; auto).
      intros m e. apply Hlog.
  - eexists. split.
    + run_handler. cbn. rewrite Hin. cbn. rewrite Hok, Hbtn. cbn.
      rewrite Hnet. cbn. rewrite Hreduce. cbn.
      rewrite createConfetti_eq, trackEvent_eq. reflexivity.
    + cbn. rewrite Hbtn, Hin. repeat split;
        auto using classList_add_in; try (rewrite !in_app_iff; cbn; auto).
      intros m e. apply Hlog.
Qed.

Lemma successful_submit_shows_panel_witness :
  exists w',
    handleFormSubmit (sample_world true (Response true) (lit "a@b.co"))
    = Normal tt w'
    /\ form_display w' = "none" /\ submit_btn w' = Some joining.
Proof.
  destruct (@successful_submit_shows_panel
              (sample_world true (Response true) (lit "a@b.co"))
              (sample_input (lit "a@b.co")) sample_button
              eq_refl eq_refl eq_refl eq_refl)
    as (w' & Hrun & Hform & _ & _ & _ & Hbtn & _).
  exists w'. auto.
Defined.

(** ** Submitting again *)

Lemma valid_submit_frame w input button :
  email_input w = Some input ->
  submit_btn w = Some button ->
  isValidEmail (trim (value input)) = true ->
  requests (final (handleFormSubmit w)) = requests w ++ [submission w input]
  /\ email_input (final (handleFormSubmit w)) = Some input
  /\ (exists b, submit_btn (final (handleFormSubmit w)) = Some b)
  /\ submit_listeners (final (handleFormSubmit w)) = submit_listeners w
  /\ form_action (final (handleFormSubmit w)) = form_action w.
Proof.
  intros Hin Hbtn Hok. apply valid_guard in Hok. unfold submission.
  run_handler. cbn. rewrite Hin. cbn. rewrite Hok, Hbtn. cbn.
  destruct (respond (env w) _) as [[|] | e]; cbn.
  - destruct (reduced_motion (env w)); cbn.
    + rewrite trackEvent_eq. cbn. rewrite Hin, Hbtn. cbn. eauto 10.
    + rewrite createConfetti_eq, trackEvent_eq. cbn. rewrite Hin, Hbtn. cbn.
      eauto 10.
  - rewrite Hin, Hbtn. cbn. eauto 10.
  - rewrite Hin, Hbtn. cbn. eauto 10.
Qed.

Lemma invalid_submit_frame w input :
  email_input w = Some input ->
  isValidEmail (trim (value input)) = false ->
  requests (final (handleFormSubmit w)) = requests w
  /\ email_input (final (handleFormSubmit w)) = Some (shake input)
  /\ submit_btn (final (handleFormSubmit w)) = submit_btn w
  /\ submit_listeners (final (handleFormSubmit w)) = submit_listeners w
  /\ form_action (final (handleFormSubmit w)) = form_action w
  /\ timers (final (handleFormSubmit w))
     = timers w ++ [(500%Z, ShakeReset); (1000%Z, RemoveNode (next_id w))].
Proof.
  intros Hin Hbad.
  assert (Hguard : is_empty (trim (value input))
                   || negb (isValidEmail (trim (value input))) = true)
    by (rewrite Hbad; apply orb_true_r).
  run_handler. cbn. rewrite Hin. cbn. rewrite Hguard. cbn. rewrite Hin. cbn.
  repeat split. now rewrite <- app_assoc.
Qed.

Lemma single_listener_step w :
  submit_listeners w = 1 ->
  step SubmitEvent w
  = final (handleFormSubmit (upd_default_prevented (fun _ => false) w)).
Proof. intro H. cbn [step]. now rewrite H. Qed.

(** X8.  A rejected attempt does not disable the form: after it, once
    the visitor has typed a valid address, the next submit sends
    exactly one request, carrying the new value. *)
Theorem retry_after_invalid w input button v :
  email_input w = Some input ->
  submit_btn w = Some button ->
  submit_listeners w = 1 ->
  isValidEmail (trim (value input)) = false ->
  isValidEmail (trim v) = true ->
  requests (run [SubmitEvent; UserTypes v; SubmitEvent] w)
  = requests w ++ [{| req_url := form_action w;
                      req_method := "POST";
                      req_accept := "application/json";
                      req_body := Some v |}].
Proof.
  intros Hin Hbtn Hone Hbad Hok. unfold run. cbn [fold_left].
  rewrite (single_listener_step w Hone).
  set (w0 := upd_default_prevented (fun _ => false) w).
  destruct (@invalid_submit_frame w0 input Hin Hbad)
    as (Hreq & Hin1 & Hbtn1 & Hone1 & Hact1 & _).
  set (w1 := final (handleFormSubmit w0)) in *.
  cbn [step]. set (w2 := upd_email_input (option_map (set_value v)) w1).
  assert (Hin2 : email_input w2 = Some (set_value v (shake input)))
    by (unfold w2; cbn; now rewrite Hin1).
  assert (Hone2 : submit_listeners w2 = 1)
    by (unfold w2; cbn; rewrite Hone1; exact Hone).
  fold (step SubmitEvent w2). rewrite (single_listener_step w2 Hone2).
  set (w3 := upd_default_prevented (fun _ => false) w2).
  assert (Hbtn3 : submit_btn w3 = Some button)
    by (unfold w3, w2; cbn; rewrite Hbtn1; exact Hbtn).
  destruct (@valid_submit_frame w3 (set_value v (shake input)) button Hin2 Hbtn3 Hok)
    as (Hreq3 & _).
  rewrite Hreq3. unfold submission, w3, w2. cbn. now rewrite Hreq, Hact1.
Qed.

Lemma retry_after_invalid_witness :
  isValidEmail (trim (lit "not-an-email")) = false
  /\ List.length
       (requests (run [SubmitEvent; UserTypes (lit "a@b.co"); SubmitEvent]
                      (sample_world false (Response true) (lit "not-an-email"))))
     = 1.
Proof.
  split; [vm_compute; reflexivity |].
  rewrite (@retry_after_invalid
             (sample_world false (Response true) (lit "not-an-email"))
             (sample_input (lit "not-an-email")) sample_button (lit "a@b.co")
             eq_refl eq_refl eq_refl eq_refl eq_refl).
  reflexivity.
Defined.

(** X9.  Nothing is retried and nothing is locked: [n] submit events on
    a form holding a valid address send exactly [n] requests, one per
    event, whatever the network answers. *)
Theorem each_submit_sends_once n : forall w input button,
  email_input w = Some input ->
  submit_btn w = Some button ->
  submit_listeners w = 1 ->
  isValidEmail (trim (value input)) = true ->
  requests (run (repeat SubmitEvent n) w)
  = requests w ++ repeat (submission w input) n.
Proof.
  induction n as [|n IH]; intros w input button Hin Hbtn Hone Hok.
  - cbn. now rewrite app_nil_r.
  - cbn [repeat]. unfold run. cbn [fold_left].
    rewrite (single_listener_step w Hone).
    set (w0 := upd_default_prevented (fun _ => false) w).
    destruct (@valid_submit_frame w0 input button Hin Hbtn Hok)
      as (Hreq & Hin1 & (b & Hbtn1) & Hone1 & Hact1).
    fold (run (repeat SubmitEvent n) (final (handleFormSubmit w0))).
    rewrite (IH _ input b Hin1 Hbtn1 (eq_trans Hone1 Hone) Hok), Hreq.
    unfold submission. rewrite Hact1. unfold w0. cbn.
    now rewrite <- app_assoc.
Qed.

Lemma each_submit_sends_once_witness :
  List.length
    (requests (run (repeat SubmitEvent 3)
                   (sample_world false (Response false) (lit "a@b.co"))))
  = 3.
Proof.
  rewrite (@each_submit_sends_once 3
             (sample_world false (Response false) (lit "a@b.co"))
             (sample_input (lit "a@b.co")) sample_button
             eq_refl eq_refl eq_refl eq_refl).
  reflexivity.
Defined.

(** X10.  The shake is undone by its timer whatever happened in
    between: if the visitor edits the field after a rejected attempt,
    the reset keeps the edited value, clears the animation and the
    border colour, and marks the field as not invalid. *)
Theorem shake_reset_keeps_edit w input v :
  email_input w = Some input ->
  submit_listeners w = 1 ->
  timers w = [] ->
  isValidEmail (trim (value input)) = false ->
  email_input (run [SubmitEvent; UserTypes v; TimerFires 0] w)
  = Some {| value := v; style_animation := ""; style_borderColor := "";
            aria_invalid := Some "false" |}.
Proof.
  intros Hin Hone Htimers Hbad. unfold run. cbn [fold_left].
  rewrite (single_listener_step w Hone).
  set (w0 := upd_default_prevented (fun _ => false) w).
  destruct (@invalid_submit_frame w0 input Hin Hbad)
    as (_ & Hin1 & _ & _ & _ & Htm).
  unfold w0 in Htm at 2 3. cbn [timers next_id upd_default_prevented] in Htm.
  rewrite Htimers in Htm. cbn [app] in Htm.
  set (w1 := final (handleFormSubmit w0)) in *.
  cbn [step timers upd_email_input]. rewrite Htm. cbn [nth_error].
  cbn. now rewrite Hin1.
Qed.

Lemma shake_reset_keeps_edit_witness :
  isValidEmail (trim (lit "nope")) = false
  /\ option_map value
       (email_input (run [SubmitEvent; UserTypes (lit "a@b.co"); TimerFires 0]
                         (sample_world false (Response true) (lit "nope"))))
     = Some (lit "a@b.co").
Proof.
  split; [vm_compute; reflexivity |].
  rewrite (@shake_reset_keeps_edit
             (sample_world false (Response true) (lit "nope"))
             (sample_input (lit "nope")) (lit "a@b.co")
             eq_refl eq_refl eq_refl eq_refl).
  reflexivity.
Defined.

End HandlerExtras.

(* ===================================================================== *)
(** * Nodes the script creates *)
(* ===================================================================== *)

Module NodeExtras.
Import JsString Email Effects Waitlist PageInvariants.
Import ConfettiFacts WaitlistFacts.
Local Open Scope string_scope.
Local Open Scope list_scope.

Arguments isValidEmail : simpl never.
Arguments trim : simpl never.
Arguments split : simpl never.
Arguments createConfetti : simpl never.
Arguments confetti_fragment : simpl never.
Arguments confettiCount : simpl never.
Arguments trackEvent : simpl never.
Arguments announceToScreenReader : simpl never.

(** ** Commands that keep a property *)

Section Keeps.
Variable P : world -> Prop.

Lemma keeps_ret {A} (a : A) : keeps P (ret a).
Proof. intros w H. exact H. Qed.

Lemma keeps_throw {A} e : keeps P (throw (A := A) e).
Proof. intros w H. exact H. Qed.

Lemma keeps_gets {A} (f : world -> A) : keeps P (gets f).
Proof. intros w H. exact H. Qed.

Lemma keeps_modify f : (forall w, P w -> P (f w)) -> keeps P (modify f).
Proof. intros Hf w H. now apply Hf. Qed.

Lemma keeps_bind {A B} (c : Waitlist.M A) (k : A -> Waitlist.M B) :
  keeps P c -> (forall a, keeps P (k a)) -> keeps P (bind c k).
Proof.
  intros Hc Hk w H. specialize (Hc w H). unfold bind.
  destruct (c w) as [a w' | e w']; [now apply Hk | exact Hc].
Qed.

Lemma keeps_try {A} (c : Waitlist.M A) handler :
  keeps P c -> (forall e, keeps P (handler e)) -> keeps P (try_catch c handler).
Proof.
  intros Hc Hh w H. specialize (Hc w H). unfold try_catch.
  destruct (c w) as [a w' | e w']; [exact Hc | now apply Hh].
Qed.

Lemma keeps_when b c : keeps P c -> keeps P (when b c).
Proof. intro Hc. destruct b; [exact Hc | apply keeps_ret]. Qed.
End Keeps.

(** ** Fresh identities *)

Lemma map_add_seq k n : map (fun i => i + k) (seq 0 n) = seq k n.
Proof.
  revert k. induction n as [|n IH]; intro k; [reflexivity |].
  cbn [seq map]. f_equal. rewrite <- seq_shift, map_map.
  rewrite <- (IH (S k)). apply map_ext. intro i. lia.
Qed.

Lemma fragment_ids w :
  map node_id (confetti_fragment w) = seq (next_id w) confettiCount.
Proof.
  unfold confetti_fragment. rewrite map_map. cbn [nth_confetti confetti_div node_id].
  apply map_add_seq.
Qed.

(** Appending nodes numbered from [next_id] on keeps identities fresh. *)
Lemma fresh_extend w w' extra :
  fresh_ids w ->
  body w' = body w ++ extra ->
  map node_id extra = seq (next_id w) (List.length extra) ->
  next_id w' = List.length extra + next_id w ->
  fresh_ids w'.
Proof.
  intros [Hnd Hlt] Hbody Hids Hnext. unfold fresh_ids.
  rewrite Hbody, Hnext, map_app, Hids. split.
  - apply NoDup_app; [exact Hnd | apply seq_NoDup |].
    intros a Ha Hseq. apply in_seq in Hseq.
    apply in_map_iff in Ha as (n & <- & Hn).
    rewrite Forall_forall in Hlt. specialize (Hlt n Hn). lia.
  - apply Forall_app. split.
    + eapply Forall_impl; [| exact Hlt]. cbn. intros; lia.
    + apply Forall_forall. intros n Hn.
      assert (Hin : In (node_id n) (seq (next_id w) (List.length extra)))
        by (rewrite <- Hids; now apply in_map).
      apply in_seq in Hin. lia.
Qed.

Lemma fresh_filter f w : fresh_ids w -> fresh_ids (upd_body (filter f) w).
Proof.
  intros [Hnd Hlt]. unfold fresh_ids. cbn. split.
  - clear Hlt. induction (body w) as [|n l IH]; [constructor |].
    inversion Hnd as [|? ? Hn Hl]; subst. cbn. destruct (f n); [| now apply IH].
    cbn. constructor; [| now apply IH].
    intro H. apply Hn. apply in_map_iff in H as (m & E & Hm).
    apply filter_In in Hm as [Hm _]. rewrite <- E. now apply in_map.
  - apply Forall_forall. intros n Hn. apply filter_In in Hn as [Hn _].
    rewrite Forall_forall in Hlt. now apply Hlt.
Qed.

Lemma announce_eq message w :
  announceToScreenReader message w
  = Normal tt
      (upd_timers (fun l => l ++ [(1000%Z, RemoveNode (next_id w))])
         (upd_body (fun b => b ++ [status_div (next_id w) message])
            (upd_next_id S w))).
Proof. reflexivity. Qed.

Lemma keeps_fresh_announce message :
  keeps fresh_ids (announceToScreenReader message).
Proof.
  intros w H. rewrite announce_eq. cbn [final].
  apply fresh_extend with (w := w) (extra := [status_div (next_id w) message]);
    [exact H | reflexivity ..].
Qed.

Lemma keeps_fresh_confetti : keeps fresh_ids createConfetti.
Proof.
  intros w H. rewrite createConfetti_eq. cbn [final].
  apply fresh_extend with (w := w) (extra := confetti_fragment w).
  - exact H.
  - reflexivity.
  - now rewrite fragment_ids, fragment_length.
  - now rewrite fragment_length.
Qed.

(** One structural step of a [keeps] proof for a property that the
    field updates at hand do not touch. *)
Ltac keeps_struct :=
  match goal with
  | |- keeps _ (bind _ _) => apply keeps_bind; [| intro]
  | |- keeps _ (try_catch _ _) => apply keeps_try; [| intro]
  | |- keeps _ (when _ _) => apply keeps_when
  | |- keeps _ (gets _) => apply keeps_gets
  | |- keeps _ (ret _) => apply keeps_ret
  | |- keeps _ (throw _) => apply keeps_throw
  | |- keeps _ (modify _) =>
      apply keeps_modify; let H := fresh in intros ? H; exact H
  | |- keeps _ (deref ?o) => destruct o; unfold deref
  | |- keeps _ (if ?b then _ else _) => destruct b
  | |- keeps _ (match ?r with Response _ => _ | NetworkFailure _ => _ end) =>
      destruct r
  end.

Lemma keeps_fresh_track name data : keeps fresh_ids (trackEvent name data).
Proof. unfold trackEvent, push. repeat keeps_struct. Qed.

Ltac keeps_fresh :=
  repeat first
    [ match goal with
      | |- keeps _ (announceToScreenReader _) => apply keeps_fresh_announce
      | |- keeps _ createConfetti => apply keeps_fresh_confetti
      | |- keeps _ (trackEvent _ _) => apply keeps_fresh_track
      end
    | keeps_struct ].

Lemma keeps_fresh_handler : keeps fresh_ids handleFormSubmit.
Proof.
  unfold handleFormSubmit, shakeElement, set_button, prefersReducedMotion,
    fetch, setTimeout, push, set.
  keeps_fresh.
Qed.

Lemma fresh_step ev w : fresh_ids w -> fresh_ids (step ev w).
Proof.
  intro H. destruct ev as [v | | k]; cbn [step].
  - exact H.
  - assert (H0 : fresh_ids (upd_default_prevented (fun _ => false) w)) by exact H.
    revert H0. generalize (upd_default_prevented (fun _ => false) w).
    induction (submit_listeners w) as [|n IH]; intros w0 H0; [exact H0 |].
    cbn [Nat.iter nat_rect]. apply keeps_fresh_handler. now apply IH.
  - destruct (nth_error (timers w) k) as [[d [| id |]] |]; try exact H.
    + now apply (fresh_filter _ (w := upd_timers (remove_nth k) w)).
    + now apply (fresh_filter _ (w := upd_timers (remove_nth k) w)).
Qed.

(** Node identities stay fresh: on a page whose nodes have distinct
    identities below the next one to be issued, they still do after any
    sequence of edits, submissions and timers. *)
Lemma fresh_ids_invariant evs : forall w,
  fresh_ids w -> fresh_ids (run evs w).
Proof.
  unfold run. induction evs as [|ev evs IH]; intros w H; cbn [fold_left].
  - exact H.
  - apply IH. now apply fresh_step.
Qed.

(** On a page with fresh identities, the timer of a node removes that
    node and nothing else, wherever the node stands in the body. *)
Lemma removal_is_exact w pre n post :
  fresh_ids w ->
  body w = pre ++ n :: post ->
  body (run_callback (RemoveNode (node_id n)) w) = pre ++ post.
Proof.
  intros [Hnd _] Hbody. cbn. rewrite Hbody in *.
  rewrite map_app in Hnd. cbn [map] in Hnd.
  apply NoDup_remove_2 in Hnd.
  assert (Hkeep : forall l, (forall m, In m l -> node_id m <> node_id n) ->
                            filter (fun m => negb (Nat.eqb (node_id m) (node_id n))) l = l).
  { intros l Hl. apply forallb_filter_id, forallb_forall. intros m Hm.
    apply negb_true_iff, Nat.eqb_neq. now apply Hl. }
  rewrite filter_app. cbn [filter]. rewrite Nat.eqb_refl. cbn [negb].
  rewrite !Hkeep; [reflexivity | |];
    intros m Hm E; apply Hnd; rewrite <- E, <- map_app;
    apply in_map, in_or_app; auto.
Qed.

(** X11.  A removal timer takes away its own node and nothing else:
    on a page that started without script-made nodes, after any
    sequence of edits, submissions and timers, removing a node of the
    body by its timer leaves the others in place and in order. *)
Theorem timer_removes_its_node w0 evs pre n post :
  body w0 = [] ->
  body (run evs w0) = pre ++ n :: post ->
  body (run_callback (RemoveNode (node_id n)) (run evs w0)) = pre ++ post.
Proof.
  intros Hempty Hbody. apply removal_is_exact; [| exact Hbody].
  apply fresh_ids_invariant. unfold fresh_ids. rewrite Hempty.
  split; constructor.
Qed.

Lemma timer_removes_its_node_witness :
  let w := run [SubmitEvent]
               (sample_world true (Response false) (lit "a@b.co")) in
  body w = [status_div 0 "There was an error. Please try again."]
  /\ body (run_callback (RemoveNode 0) w) = [].
Proof.
  split; [reflexivity |].
  exact (@timer_removes_its_node
           (sample_world true (Response false) (lit "a@b.co")) [SubmitEvent]
           [] (status_div 0 "There was an error. Please try again.") []
           eq_refl eq_refl).
Defined.

(** ** The look of a confetti piece *)

Lemma pick_color_in_palette r :
  (0 <= r /\ r < 1)%Q -> In (pick_color r) colors.
Proof.
  intros [H0 H1]. unfold pick_color.
  change (inject_Z (Z.of_nat (List.length colors))) with 4%Q.
  assert (Hz : (0 <= Qfloor (r * 4) < 4)%Z).
  { split.
    - change 0%Z with (Qfloor 0). apply Qfloor_resp_le. lra.
    - rewrite Zlt_Qlt. eapply Qle_lt_trans; [apply Qfloor_le |].
      change (inject_Z 4) with 4%Q. lra. }
  assert (Hcase : Qfloor (r * 4) = 0%Z \/ Qfloor (r * 4) = 1%Z
                  \/ Qfloor (r * 4) = 2%Z \/ Qfloor (r * 4) = 3%Z) by lia.
  destruct Hcase as [-> | [-> | [-> | ->]]]; cbn; auto.
Qed.

(** X12.  Every confetti piece takes its colour from the four-colour
    palette, is a square of fixed position placed at 0..100 vw along
    the top edge, above the page, and is either round or square. *)
Theorem confetti_layout_spec w :
  (forall k, (0 <= random (env w) k /\ random (env w) k < 1)%Q) ->
  Forall confetti_layout (confetti_fragment w).
Proof.
  intro H. apply Forall_forall. intros n Hn. unfold confetti_fragment in Hn.
  apply in_map_iff in Hn as (i & <- & _).
  unfold nth_confetti, confetti_div, confetti_layout.
  cbn [css_background css_left css_width css_height css_position css_top
       css_z_index css_border_radius].
  pose proof (H (6 * i + 3 + random_calls w)) as H3.
  split; [apply pick_color_in_palette, H |].
  split; [split; lra |]. repeat split.
  destruct (Qle_bool _ _); auto.
Qed.

Lemma confetti_layout_spec_witness :
  Forall confetti_layout
         (confetti_fragment (sample_world false (Response true) [])).
Proof.
  exact (@confetti_layout_spec (sample_world false (Response true) [])
           sample_random_in_unit).
Defined.

(** ** The cleanup *)

(** X13.  The confetti cleanup takes away every node styled with the
    confetti animation and leaves every announcement in place. *)
Theorem cleanup_spares_announcements q :
  filter (fun n => negb (is_confetti n)) (body (run_callback ConfettiCleanup q))
  = filter (fun n => negb (is_confetti n)) (body q)
  /\ (forall n, In n (body (run_callback ConfettiCleanup q)) ->
                style_includes "confettiFall" n = false).
Proof.
  cbn. split.
  - induction (body q) as [|n l IH]; [reflexivity |].
    destruct n as [id r al aa c t | id st h]; cbn.
    + now rewrite IH.
    + destruct (negb _); cbn; exact IH.
  - intros n Hn. apply filter_In in Hn as [_ Hn]. now apply negb_true_iff.
Qed.

End NodeExtras.

(* ===================================================================== *)
(** * More on scroll reveal *)
(* ===================================================================== *)

Module ScrollExtras.
Import ScrollReveal ScrollRevealFacts.
Local Open Scope string_scope.
Local Open Scope list_scope.

(** ** The observer path *)

Lemma select_from_In sel els : forall k i,
  In i (select_from k sel els) <->
  exists el, k <= i /\ nth_error els (i - k) = Some el /\ sel el = true.
Proof.
  induction els as [|x els IH]; intros k i; cbn [select_from].
  - split; [intros [] |]. intros (el & _ & H & _). now destruct (i - k).
  - assert (Hrest : In i (select_from (S k) sel els) <->
                    exists el, k < i /\ nth_error (x :: els) (i - k) = Some el
                               /\ sel el = true).
    { rewrite IH. split; intros (el & Hk & Hn & Hs); exists el;
        (split; [lia |]); (split; [| exact Hs]).
      - replace (i - k) with (S (i - S k)) by lia. exact Hn.
      - replace (i - k) with (S (i - S k)) in Hn by lia. exact Hn. }
    destruct (sel x) eqn:Ex; cbn [In]; rewrite Hrest; split.
    + intros [E | (el & Hk & Hn & Hs)].
      * subst i. exists x. rewrite Nat.sub_diag. auto.
      * exists el. split; [lia | auto].
    + intros (el & Hk & Hn & Hs). destruct (Nat.eq_dec k i) as [E | Hne];
        [now left | right]. exists el. split; [lia | auto].
    + intros (el & Hk & Hn & Hs). exists el. split; [lia | auto].
    + intros (el & Hk & Hn & Hs). exists el. split; [| auto].
      destruct (Nat.eq_dec k i) as [E | Hne]; [| lia].
      subst i. rewrite Nat.sub_diag in Hn. cbn in Hn. congruence.
Qed.

Lemma forEach_observe l : forall p,
  elements (forEach observe l p) = elements p
  /\ timers (forEach observe l p) = timers p
  /\ (forall i, In i (observed (forEach observe l p)) <->
                In i (observed p) \/ In i l).
Proof.
  unfold forEach. induction l as [|t l IH]; intro p; cbn [fold_left].
  - split; [reflexivity | split; [reflexivity |]]. intro i. cbn [In]. tauto.
  - destruct (IH (observe p t)) as (He & Ht & Ho).
    rewrite He, Ht. split; [reflexivity | split; [reflexivity |]].
    intro i. rewrite Ho. cbn [observe observed In].
    destruct (existsb (Nat.eqb t) (observed p)) eqn:E.
    + apply existsb_exists in E as (x & Hx & Ex). apply Nat.eqb_eq in Ex. subst x.
      split; [tauto |]. intros [H | [<- | H]]; auto.
    + rewrite in_app_iff. cbn [In]. tauto.
Qed.

(** X14.  With the observer available, [initScrollAnimations] tags each
    content-section element with the pending marker and observes it,
    and does nothing else: other elements, all inline styles and the
    timers are untouched. *)
Theorem observer_path_tags_and_observes p :
  hasIntersectionObserver p = true ->
  elements (initScrollAnimations p)
  = map (fun el => if is_section_item el
                   then classList_add "animate-on-scroll" el else el)
        (elements p)
  /\ (forall i, In i (observed (initScrollAnimations p)) <->
                In i (observed p)
                \/ exists el, nth_error (elements p) i = Some el
                              /\ is_section_item el = true)
  /\ timers (initScrollAnimations p) = timers p.
Proof.
  intro H. unfold initScrollAnimations, querySelectorAll. rewrite H. cbn [negb].
  set (targets := select_from 0 is_section_item (elements p)).
  set (p1 := forEach (update_element (classList_add "animate-on-scroll")) targets p).
  destruct (forEach_observe targets p1) as (He & Ht & Ho).
  destruct (forEach_update_frame (classList_add "animate-on-scroll") targets p)
    as (_ & Hobs & Htm).
  split; [| split].
  - rewrite He. unfold p1, targets.
    apply (forEach_update_selected _ _ (elements p) [] p). reflexivity.
  - intro i. rewrite Ho. fold p1 in Hobs. rewrite Hobs. unfold targets.
    rewrite select_from_In. split; intros [Hi | Hi]; auto; right.
    + destruct Hi as (el & _ & Hn & Hs). rewrite Nat.sub_0_r in Hn. eauto.
    + destruct Hi as (el & Hn & Hs). exists el. rewrite Nat.sub_0_r.
      split; [lia | auto].
  - rewrite Ht. exact Htm.
Qed.

Lemma observer_path_tags_and_observes_witness :
  let p := {| hasIntersectionObserver := true;
              elements := [card; tagged_card];
              observed := []; timers := [] |} in
  map (has_class "animate-on-scroll") (elements (initScrollAnimations p))
  = [true; true].
Proof.
  cbv zeta.
  rewrite (proj1 (@observer_path_tags_and_observes
                    {| hasIntersectionObserver := true;
                       elements := [card; tagged_card];
                       observed := []; timers := [] |} eq_refl)).
  reflexivity.
Defined.

(** ** A batch of entries *)

Lemma on_entries_observed entries : forall n p,
  elements (on_entries n entries p) = elements p
  /\ (forall t, In t (observed (on_entries n entries p)) <->
                In t (observed p)
                /\ ~ exists e, In e entries /\ isIntersecting e = true
                               /\ target e = t).
Proof.
  induction entries as [|e entries IH]; intros n p; cbn [on_entries].
  - split; [reflexivity |]. intro t. split; [| tauto].
    intro H. split; [exact H |]. intros (e & [] & _).
  - set (p' := if isIntersecting e
               then unobserve (target e)
                      (setTimeout (AddVisible (target e)) (stagger_delay n) p)
               else p).
    destruct (IH (S n) p') as (He & Ho). split.
    + rewrite He. unfold p'. now destruct (isIntersecting e).
    + intro t. rewrite Ho. unfold p'. cbn [In].
      destruct (isIntersecting e) eqn:Ei.
      * cbn [observed unobserve setTimeout]. rewrite filter_In, negb_true_iff, Nat.eqb_neq.
        split.
        -- intros [[Hin Hne] Hno]. split; [exact Hin |].
           intros (x & [<- | Hx] & Hi & Ht); [congruence |].
           apply Hno. eauto.
        -- intros [Hin Hno]. split; [split; [exact Hin |] |].
           ++ intro Heq. apply Hno. exists e. auto.
           ++ intros (x & Hx & Hi & Ht). apply Hno. exists x. auto.
      * split; intros [Hin Hno]; (split; [exact Hin |]).
        -- intros (x & [<- | Hx] & Hi & Ht); [congruence |].
           apply Hno. eauto.
        -- intros (x & Hx & Hi & Ht). apply Hno. exists x. auto.
Qed.

(** X15.  A batch stops the observation of exactly the targets of its
    intersecting entries, and changes no element yet: the visible
    class only comes with the timers. *)
Theorem batch_unobserves_revealed entries p :
  elements (observer_callback entries p) = elements p
  /\ (forall t, In t (observed (observer_callback entries p)) <->
                In t (observed p)
                /\ ~ exists e, In e entries /\ isIntersecting e = true
                               /\ target e = t).
Proof. apply on_entries_observed. Qed.

(** ** Order of the delays *)

Lemma stagger_delay_mono i j : i <= j -> (stagger_delay i <= stagger_delay j)%Z.
Proof. unfold stagger_delay. lia. Qed.

Lemma strongly_sorted_snoc l x :
  StronglySorted Z.le l -> Forall (fun d => (d <= x)%Z) l ->
  StronglySorted Z.le (l ++ [x]).
Proof.
  induction 1 as [|d l Hl IH Hd]; intro Hx; cbn.
  - repeat constructor.
  - inversion Hx as [|? ? Hdx Hlx]; subst. constructor; [now apply IH |].
    apply Forall_app. split; [exact Hd | now constructor].
Qed.

Lemma on_entries_sorted entries : forall n p,
  StronglySorted Z.le (map fst (timers p)) ->
  Forall (fun d => (0 <= d <= stagger_delay n)%Z) (map fst (timers p)) ->
  StronglySorted Z.le (map fst (timers (on_entries n entries p)))
  /\ Forall (fun d => (0 <= d <= 500)%Z)
            (map fst (timers (on_entries n entries p))).
Proof.
  induction entries as [|e entries IH]; intros n p Hs Hb; cbn [on_entries].
  - split; [exact Hs |]. eapply Forall_impl; [| exact Hb].
    cbn. unfold stagger_delay. lia.
  - apply IH; destruct (isIntersecting e);
      cbn [timers unobserve setTimeout]; rewrite ?map_app; cbn [map fst].
    + apply strongly_sorted_snoc; [exact Hs |].
      eapply Forall_impl; [| exact Hb]. cbn. lia.
    + exact Hs.
    + apply Forall_app. split.
      * eapply Forall_impl; [| exact Hb]. cbn.
        pose proof (stagger_delay_mono (Nat.le_succ_diag_r n)). lia.
      * repeat constructor; unfold stagger_delay; lia.
    + eapply Forall_impl; [| exact Hb]. cbn.
      pose proof (stagger_delay_mono (Nat.le_succ_diag_r n)). lia.
Qed.

(** X16.  The timers a batch schedules are in batch order with delays
    that never decrease, all between 0 and 500 ms; from the sixth
    entry on the delay is the 500 ms cap. *)
Theorem stagger_delays_ordered entries p :
  timers p = [] ->
  StronglySorted Z.le (map fst (timers (observer_callback entries p)))
  /\ Forall (fun d => (0 <= d <= 500)%Z)
            (map fst (timers (observer_callback entries p)))
  /\ (forall i, 5 <= i -> stagger_delay i = 500%Z).
Proof.
  intro H. unfold observer_callback.
  destruct (@on_entries_sorted entries 0 p) as [Hs Hb];
    try (rewrite H; constructor).
  repeat split; auto. intros i Hi. unfold stagger_delay. lia.
Qed.

Lemma stagger_delays_ordered_witness :
  map fst (timers (observer_callback
                     (repeat {| target := 0; isIntersecting := true |} 8)
                     observed_page))
  = [0; 100; 200; 300; 400; 500; 500; 500]%Z
  /\ StronglySorted Z.le
       (map fst (timers (observer_callback
                           (repeat {| target := 0; isIntersecting := true |} 8)
                           observed_page))).
Proof.
  split; [reflexivity |].
  exact (proj1 (@stagger_delays_ordered
                  (repeat {| target := 0; isIntersecting := true |} 8)
                  observed_page eq_refl)).
Defined.

End ScrollExtras.

(* ===================================================================== *)
(** * Start-up and the guard *)
(* ===================================================================== *)

Module StartupExtras.
Import Effects Bootstrap Startup BootstrapFacts.
Local Open Scope string_scope.
Local Open Scope list_scope.

(** X17.  [init] never throws, whatever its initializers do; and when
    none of them throws, the page is what the six calls leave in source
    order, with nothing logged. *)
Theorem init_guard_spec
  (W : Type) (console_error : string -> js_error -> W -> W)
  (a1 a2 a3 a4 a5 a6 : M W unit) (w : W) :
  completes (init console_error a1 a2 a3 a4 a5 a6 w) = true
  /\ (forall w',
        sequence [a1; a2; a3; a4; a5; a6] w = Normal tt w' ->
        init console_error a1 a2 a3 a4 a5 a6 w = Normal tt w').
Proof.
  split; [apply init_never_throws |].
  intros w' H. unfold init, try_catch, initializers. now rewrite H.
Qed.

(** X18.  [init] runs exactly once whatever the ready state: a document
    still loading runs it when DOMContentLoaded fires and not before; a
    document past loading runs it at once, and a DOMContentLoaded event
    that fires afterwards does not run it again. *)
Theorem init_runs_once (W : Type) (init : M W unit) (d : document W) :
  onDOMContentLoaded d = false ->
  page (DOMContentLoaded init (startup init d)) = final (init (page d))
  /\ (readyState d = Loading -> page (startup init d) = page d)
  /\ (readyState d <> Loading ->
      page (startup init d) = final (init (page d))).
Proof.
  intro H. unfold DOMContentLoaded, startup, run_init.
  destruct (readyState d); cbn; rewrite ?H; cbn; repeat split; congruence.
Qed.

Lemma init_runs_once_witness :
  entered (page (DOMContentLoaded (probe_init (fun _ => false))
                   (startup (probe_init (fun _ => false))
                            {| readyState := Interactive;
                               onDOMContentLoaded := false;
                               page := probe0 |})))
  = [ScrollAnimations; WaitlistForm; SmoothScroll; NavbarScroll; CurrentYear;
     KeyboardNavigation].
Proof.
  rewrite (proj1 (@init_runs_once probe (probe_init (fun _ => false))
                    {| readyState := Interactive; onDOMContentLoaded := false;
                       page := probe0 |} eq_refl)).
  reflexivity.
Defined.

End StartupExtras.

(* ===================================================================== *)
(** * The navbar follows the scroll position *)
(* ===================================================================== *)

Module NavbarExtras.
Import Navbar.
Local Open Scope string_scope.
Local Open Scope list_scope.

Lemma navbar_run_app evs evs' s : run (evs ++ evs') s = run evs' (run evs s).
Proof. unfold run. apply fold_left_app. Qed.

Lemma navbar_throttled_step ev s : throttled s -> throttled (step ev s).
Proof.
  unfold throttled. intro H. destruct ev as [y |]; cbn [step].
  - cbn [scroll_listener set_offset]. destruct (scroll_listener s); [| exact H].
    unfold on_scroll. cbn [ticking set_offset frames].
    destruct (ticking s) eqn:E; cbn.
    + now rewrite E.
    + now rewrite H.
  - rewrite H. destruct (ticking s) eqn:E; cbn; [reflexivity | now rewrite E].
Qed.

Lemma navbar_throttled_run evs : forall s, throttled s -> throttled (run evs s).
Proof.
  unfold run. induction evs as [|ev evs IH]; intros s H; cbn [fold_left];
    [exact H | now apply IH, navbar_throttled_step].
Qed.

Lemma navbar_throttled_init n y : throttled (initNavbarScroll (loaded n y)).
Proof. destruct n; reflexivity. Qed.

Lemma no_nav_run evs : forall s,
  nav s = None -> scroll_listener s = false -> frames s = [] ->
  nav (run evs s) = None /\ frames (run evs s) = [].
Proof.
  unfold run. induction evs as [|ev evs IH]; intros s Hn Hl Hf; cbn [fold_left];
    [auto |].
  apply IH; destruct ev as [y |]; cbn [step]; cbn; rewrite ?Hl, ?Hf; auto.
Qed.

(** X19.  Scroll handling is throttled: after any sequence of scroll
    events and animation frames at most one navbar update is queued,
    and the flag is set exactly while one is; without a navbar nothing
    is ever queued. *)
Theorem navbar_throttle n y evs :
  List.length (frames (run evs (initNavbarScroll (loaded n y)))) <= 1
  /\ (ticking (run evs (initNavbarScroll (loaded n y))) = true <->
      frames (run evs (initNavbarScroll (loaded n y))) = [UpdateNavbar])
  /\ (n = None ->
      frames (run evs (initNavbarScroll (loaded n y))) = []).
Proof.
  pose proof (navbar_throttled_run evs (navbar_throttled_init n y)) as H.
  unfold throttled in H. split; [| split].
  - rewrite H. destruct (ticking _); cbn; lia.
  - rewrite H. destruct (ticking _); split; congruence.
  - intros ->. now apply no_nav_run.
Qed.

(** The navbar is there and listening. *)
Lemma live_step ev s :
  scroll_listener s = true -> nav s <> None ->
  scroll_listener (step ev s) = true /\ nav (step ev s) <> None.
Proof.
  intros Hl Hn. destruct ev as [y |]; cbn [step].
  - cbn [scroll_listener set_offset]. rewrite Hl. unfold on_scroll.
    cbn [ticking set_offset]. destruct (ticking s); cbn; auto.
  - destruct (frames s) as [|[] l]; cbn; [auto |].
    assert (Hgen : forall l s',
               scroll_listener s' = true -> nav s' <> None ->
               scroll_listener
                 (fold_left (fun x cb => run_frame_callback cb x) l s') = true
               /\ nav (fold_left (fun x cb => run_frame_callback cb x) l s')
                  <> None).
    { clear. induction l as [|[] l IH]; intros s' Hl Hn; cbn; [auto |].
      apply IH; cbn; [exact Hl |]. now destruct (nav s'). }
    apply Hgen; cbn; [exact Hl |]. now destruct (nav s).
Qed.

Lemma live_run evs : forall s,
  scroll_listener s = true -> nav s <> None ->
  scroll_listener (run evs s) = true /\ nav (run evs s) <> None.
Proof.
  unfold run. induction evs as [|ev evs IH]; intros s Hl Hn; cbn [fold_left];
    [auto |].
  destruct (@live_step ev s Hl Hn). now apply IH.
Qed.

Lemma scrolled_to y s :
  scroll_listener s = true ->
  ticking (step (Scroll y) s) = true /\ pageYOffset (step (Scroll y) s) = y.
Proof.
  intro Hl. cbn [step]. cbn [scroll_listener set_offset]. rewrite Hl.
  unfold on_scroll. cbn [ticking set_offset]. destruct (ticking s) eqn:E; cbn; auto.
Qed.

(** X20.  The navbar shows the style of the last scroll position: after
    any history, a burst of scroll events followed by one animation
    frame leaves the navbar in the style for the position of the last
    event, with nothing queued; the scrolled style is the one for
    offsets strictly above 100. *)
Theorem navbar_follows_last_scroll nav0 y0 evs ys y :
  let s := run (evs ++ map Scroll (ys ++ [y]) ++ [AnimationFrame])
               (initNavbarScroll (loaded (Some nav0) y0)) in
  nav s = Some (style_for y) /\ ticking s = false /\ frames s = []
  /\ (style_for y = scrolled_style <-> (100 < y)%Q).
Proof.
  cbv zeta. rewrite !navbar_run_app, map_app, navbar_run_app.
  set (s0 := run evs (initNavbarScroll (loaded (Some nav0) y0))).
  assert (Hlive0 : scroll_listener s0 = true /\ nav s0 <> None)
    by (apply live_run; [reflexivity | discriminate]).
  assert (Hthr0 : throttled s0) by apply navbar_throttled_run, navbar_throttled_init.
  set (s1 := run (map Scroll ys) s0).
  assert (Hlive1 : scroll_listener s1 = true /\ nav s1 <> None)
    by (apply live_run; tauto).
  assert (Hthr1 : throttled s1) by now apply navbar_throttled_run.
  change (run (map Scroll [y]) s1) with (step (Scroll y) s1).
  destruct (@scrolled_to y s1 (proj1 Hlive1)) as [Htick Hoff].
  pose proof (@navbar_throttled_step (Scroll y) s1 Hthr1) as Hthr2.
  destruct (@live_step (Scroll y) s1 (proj1 Hlive1) (proj2 Hlive1)) as [_ Hnav2].
  remember (step (Scroll y) s1) as s2 eqn:Es2.
  unfold throttled in Hthr2. rewrite Htick in Hthr2.
  change (run [AnimationFrame] s2) with (step AnimationFrame s2).
  cbn [step]. rewrite Hthr2.
  cbn [fold_left run_frame_callback updateNavbar clear_frames nav ticking
       frames pageYOffset].
  rewrite Hoff.
  destruct (nav s2); [| congruence]. repeat split.
  - unfold style_for, past_threshold. intro H.
    destruct (Qle_bool y 100) eqn:E; [discriminate H |].
    apply Qnot_le_lt. intro Hle. apply Qle_bool_iff in Hle. congruence.
  - unfold style_for, past_threshold. intro H.
    destruct (Qle_bool y 100) eqn:E; [| reflexivity].
    apply Qle_bool_iff in E. exfalso. now apply (Qlt_not_le _ _ H).
Qed.

End NavbarExtras.

(* ===================================================================== *)
(** * The parallax guard and throttle *)
(* ===================================================================== *)

Module ParallaxExtras.
Import Parallax.
Local Open Scope list_scope.

Lemma parallax_run_app evs evs' s : run (evs ++ evs') s = run evs' (run evs s).
Proof. unfold run. apply fold_left_app. Qed.

Lemma idle_run evs : forall s,
  mousemove_listener s = false -> frames s = [] ->
  run evs s = s.
Proof.
  unfold run. induction evs as [|ev evs IH]; intros s Hl Hf; cbn [fold_left];
    [reflexivity |].
  assert (E : step ev s = s).
  { destruct ev as [e | r]; cbn [step]; [now rewrite Hl |].
    rewrite Hf. cbn. destruct s; cbn in *; now subst. }
  rewrite E. now apply IH.
Qed.

(** X21.  On a narrow window, with reduced motion requested, or without
    the hero element, the parallax is never set up: no mouse move or
    animation frame ever changes the page. *)
Theorem parallax_guard w reduce hero evs :
  (w < 1024)%Z \/ reduce = true \/ hero = false ->
  run evs (setup (loaded w reduce hero)) = loaded w reduce hero.
Proof.
  intro H.
  assert (E : setup (loaded w reduce hero) = loaded w reduce hero).
  { unfold setup. cbn [innerWidth reduced_motion heroVisual loaded].
    destruct H as [H | [-> | ->]].
    - apply Z.ltb_lt in H. now rewrite H.
    - now rewrite orb_true_r.
    - now destruct (_ || _). }
  rewrite E. now apply idle_run.
Qed.

Lemma parallax_guard_witness :
  hero_translate
    (run [MouseMove {| clientX := 10; clientY := 20 |};
          AnimationFrame {| left := 0; top := 0; width := 100; height := 100 |}]
         (setup (loaded 1440 true true)))
  = None.
Proof.
  rewrite (@parallax_guard 1440 true true
             [MouseMove {| clientX := 10; clientY := 20 |};
              AnimationFrame {| left := 0; top := 0; width := 100; height := 100 |}]
             (or_intror (or_introl eq_refl))).
  reflexivity.
Defined.

Lemma pending_moves es : forall s,
  mousemove_listener s = true -> truthy (rafId s) = true ->
  run (map MouseMove es) s = s.
Proof.
  unfold run. induction es as [|e es IH]; intros s Hl Hr; cbn [map fold_left];
    [reflexivity |].
  assert (E : step (MouseMove e) s = s).
  { cbn [step]. rewrite Hl. unfold on_mousemove. now rewrite Hr. }
  rewrite E. now apply IH.
Qed.

(** X22.  Between two animation frames only the first mouse move
    counts: with no frame pending, a burst of moves followed by a frame
    translates the hero by 1/50 of the offset of the first move from
    the centre of the rectangle reported at the frame; the later moves
    of the burst are dropped, and the throttle is released. *)
Theorem parallax_uses_first_move s e es r :
  mousemove_listener s = true ->
  rafId s = None ->
  frames s = [] ->
  let s' := run (MouseMove e :: map MouseMove es ++ [AnimationFrame r]) s in
  hero_translate s'
  = Some (((clientX e - (left r + width r / 2)) / 50)%Q,
          ((clientY e - (top r + height r / 2)) / 50)%Q)
  /\ rafId s' = None /\ frames s' = []
  /\ mousemove_listener s' = true.
Proof.
  intros Hl Hr Hf. cbv zeta.
  change (MouseMove e :: map MouseMove es ++ [AnimationFrame r])
    with ([MouseMove e] ++ map MouseMove es ++ [AnimationFrame r]).
  rewrite !parallax_run_app.
  change (run [MouseMove e] s) with (step (MouseMove e) s).
  cbn [step]. rewrite Hl. unfold on_mousemove. rewrite Hr. cbn [truthy].
  rewrite pending_moves; [| exact Hl | reflexivity].
  change (run [AnimationFrame r] ?x) with (step (AnimationFrame r) x).
  cbn [step frames]. rewrite Hf. cbn. auto.
Qed.

Lemma parallax_uses_first_move_witness :
  hero_translate
    (run [MouseMove {| clientX := 100; clientY := 50 |};
          MouseMove {| clientX := 900; clientY := 900 |};
          AnimationFrame {| left := 0; top := 0; width := 100; height := 100 |}]
         (setup (loaded 1440 false true)))
  = Some (((100 - (0 + 100 / 2)) / 50)%Q, ((50 - (0 + 100 / 2)) / 50)%Q).
Proof.
  exact (proj1 (@parallax_uses_first_move
                  (setup (loaded 1440 false true))
                  {| clientX := 100; clientY := 50 |}
                  [{| clientX := 900; clientY := 900 |}]
                  {| left := 0; top := 0; width := 100; height := 100 |}
                  eq_refl eq_refl eq_refl)).
Defined.

Lemma parallax_throttled_step ev s : throttled s -> throttled (step ev s).
Proof.
  unfold throttled. intro H. destruct ev as [e | r]; cbn [step].
  - destruct (mousemove_listener s); [| exact H]. unfold on_mousemove.
    destruct (rafId s) as [[|h] |] eqn:E; cbn [truthy].
    + destruct H as (e' & _ & Hh). congruence.
    + rewrite E. exact H.
    + cbn. rewrite H. exists e. split; [reflexivity | discriminate].
  - destruct (rafId s) as [h |] eqn:E.
    + destruct H as (e' & -> & _). reflexivity.
    + rewrite H. cbn. now rewrite E.
Qed.

(** X23.  Mouse handling is throttled: after any sequence of mouse
    moves and animation frames at most one frame callback is queued,
    and one is queued exactly while [rafId] holds its handle. *)
Theorem parallax_throttle w reduce hero evs :
  List.length (frames (run evs (setup (loaded w reduce hero)))) <= 1
  /\ throttled (run evs (setup (loaded w reduce hero))).
Proof.
  assert (H0 : throttled (setup (loaded w reduce hero))).
  { unfold setup. cbn [innerWidth reduced_motion heroVisual loaded].
    destruct (_ || _); [reflexivity |]. destruct (negb hero); reflexivity. }
  assert (H : throttled (run evs (setup (loaded w reduce hero)))).
  { revert H0. generalize (setup (loaded w reduce hero)). unfold run.
    induction evs as [|ev evs IH]; intros s H; cbn [fold_left];
      [exact H | now apply IH, parallax_throttled_step]. }
  split; [| exact H]. unfold throttled in H.
  destruct (rafId _); [destruct H as (e & -> & _); cbn; lia | rewrite H; cbn; lia].
Qed.

End ParallaxExtras.

(* ===================================================================== *)
(** * The keyframes are injected once *)
(* ===================================================================== *)

Module AnimationsExtras.
Import Animations.
Local Open Scope string_scope.
Local Open Scope list_scope.

Lemma inject_has_id d : has_id "vectorfx-animations" (inject d) = true.
Proof.
  unfold inject. destruct (has_id "vectorfx-animations" d) eqn:E; [exact E |].
  unfold has_id. cbn [head body_ids]. rewrite existsb_app. cbn.
  now rewrite !orb_true_r.
Qed.

Lemma no_id_no_style d :
  has_id "vectorfx-animations" d = false -> injected d = 0.
Proof.
  unfold has_id, injected. intro H. apply orb_false_iff in H as [_ H].
  induction (head d) as [|s l IH]; [reflexivity |].
  cbn in *. apply orb_false_iff in H as [Hs Hl]. rewrite Hs. now apply IH.
Qed.

(** X24.  The keyframes are injected at most once: however often the
    injecting function runs, the result is that of one run; after it an
    element with the id exists; on a document without the id exactly
    one such style element is in the head, after the styles that were
    there; a document that already has the id is left as it is. *)
Theorem inject_once d n :
  Nat.iter (S n) inject d = inject d
  /\ has_id "vectorfx-animations" (inject d) = true
  /\ (has_id "vectorfx-animations" d = false ->
      head (inject d) = head d ++ [animations] /\ injected (inject d) = 1)
  /\ (has_id "vectorfx-animations" d = true -> inject d = d).
Proof.
  split; [| split; [apply inject_has_id | split]].
  - induction n as [|n IH]; [reflexivity |].
    change (Nat.iter (S (S n)) inject d) with (inject (Nat.iter (S n) inject d)).
    rewrite IH. unfold inject at 1. now rewrite inject_has_id.
  - intro H. unfold inject. rewrite H. cbn [head]. split; [reflexivity |].
    unfold injected. cbn [head]. rewrite filter_app, length_app.
    fold (injected d). rewrite (no_id_no_style d H). reflexivity.
  - intro H. unfold inject. now rewrite H.
Qed.

End AnimationsExtras.
